(** * Kinvey js-sdk: offline repository selection and the local cache engine

    A shallow embedding of
    - [src/core/datastore/repositories/repository-provider.js]
      (module [RepositoryProvider]),
    - [src/rack/middleware/cache.js] (module [Cache]),
    - the active user of the local request class (module [LocalRequest]),
      and
    - the per-key operation serializer that the repository provider
      instantiates (module [PromiseQueueByKey]),
    followed by the properties of the design document that concern them
    (modules [RepositoryProviderFacts], [CacheFacts] and
    [PromiseQueueByKeyFacts]) and by further properties of the code
    (modules [RepositoryProviderMore], [CacheMore] and
    [LocalRequestFacts]).

    JavaScript promises are embedded by their settled outcome: the code
    below is single-threaded and every handler of a chain runs only after
    the promise it is attached to has settled, so the effects of a chain
    happen in the order in which the chain is written. Where the moment
    at which a handler runs matters, for the promise that the repository
    provider stores, the promise is an object with a state, and its
    handlers run as steps of their own, after the call that attached
    them. *)

From Stdlib Require Import ZArith Lia.
From stdpp Require Import base option list strings gmap.

Set Warnings "-register-all".
Local Open Scope string_scope.
Local Open Scope list_scope.

(** ** JavaScript values *)

(** Numbers are restricted to integers; [NaN] and fractions play no role
    in the code under study. *)
Inductive Value :=
| VUndefined
| VNull
| VBool (b : bool)
| VNum (n : Z)
| VStr (s : string)
| VObj (fields : list (string * Value))
| VArr (items : list Value).

(** [!v] is [negb (truthy v)]. *)
Definition truthy (v : Value) : bool :=
  match v with
  | VUndefined | VNull => false
  | VBool b => b
  | VNum n => negb (n =? 0)%Z
  | VStr s => negb (String.eqb s EmptyString)
  | VObj _ | VArr _ => true
  end.

(** lodash [isString] and [isArray]. *)
Definition isString (v : Value) : bool :=
  match v with VStr _ => true | _ => false end.

Definition isArray (v : Value) : bool :=
  match v with VArr _ => true | _ => false end.

(** Property read [o[k]] on an object literal: the first binding wins,
    a missing property reads as [undefined]. *)
Fixpoint get_field (k : string) (fields : list (string * Value)) : Value :=
  match fields with
  | [] => VUndefined
  | (k', v) :: rest => if String.eqb k k' then v else get_field k rest
  end.

(** Property write [o[k] = v]. *)
Fixpoint set_field (k : string) (v : Value) (fields : list (string * Value))
  : list (string * Value) :=
  match fields with
  | [] => [(k, v)]
  | (k', v') :: rest =>
      if String.eqb k k' then (k', v) :: rest
      else (k', v') :: set_field k v rest
  end.

(** ** Errors and promises *)

Inductive JsError :=
| NoReason                      (* [Promise.reject()] called without a reason *)
| KinveyError (msg : string)
| NotFoundError (msg : string)
| TypeError (msg : string)
| OtherError (msg : string).

(** [error instanceof NotFoundError] *)
Definition instanceof_NotFoundError (e : JsError) : bool :=
  match e with NotFoundError _ => true | _ => false end.

(** A promise, observed once it has settled. *)
Inductive Promise (A : Type) :=
| Fulfilled (a : A)
| Rejected (e : JsError).
Arguments Fulfilled {A} a.
Arguments Rejected {A} e.

(** Synchronous code over a state [S]: it either throws or completes
    with a value. *)
Definition Exc (S A : Type) : Type := S -> (JsError + A) * S.

Definition ret {S A} (a : A) : Exc S A := fun s => (inr a, s).
Definition throw {S A} (e : JsError) : Exc S A := fun s => (inl e, s).
Definition bind {S A B} (m : Exc S A) (k : A -> Exc S B) : Exc S B :=
  fun s => match m s with
           | (inl e, s') => (inl e, s')
           | (inr a, s') => k a s'
           end.

Declare Scope js_scope.
Delimit Scope js_scope with js.
Notation "x <- m ;; k" := (bind m (fun x => k))
  (at level 100, m at next level, right associativity) : js_scope.
Notation "m ;;; k" := (bind m (fun _ => k))
  (at level 100, right associativity) : js_scope.

(** [await p]: a rejected promise is rethrown at the point of the await. *)
Definition await {S A} (p : Promise A) : Exc S A :=
  match p with
  | Fulfilled a => ret a
  | Rejected e => throw e
  end.

(** [try { body } catch (error) { handler }] *)
Definition try_catch {S A} (body : Exc S A) (handler : JsError -> Exc S A)
  : Exc S A :=
  fun s => match body s with
           | (inl e, s') => handler e s'
           | (inr a, s') => (inr a, s')
           end.

(** An [async] function, and likewise the callback of [then]/[catch]:
    the body returns a value or a promise (a plain value [v] is
    [Fulfilled v]); a returned promise is adopted as it is, an exception
    that escapes the body rejects the result. *)
Definition async {S A} (body : Exc S (Promise A)) : S -> Promise A * S :=
  fun s => match body s with
           | (inl e, s') => (Rejected e, s')
           | (inr p, s') => (p, s')
           end.

(** [p.catch(handler)] *)
Definition promise_catch {S A} (p : Promise A)
    (handler : JsError -> Exc S (Promise A)) : S -> Promise A * S :=
  match p with
  | Fulfilled a => fun s => (Fulfilled a, s)
  | Rejected e => async (handler e)
  end.

(** [p.then(f)] for a callback [f] that neither throws nor has effects. *)
Definition promise_then {A B} (p : Promise A) (f : A -> B) : Promise B :=
  match p with
  | Fulfilled a => Fulfilled (f a)
  | Rejected e => Rejected e
  end.

(** The double quote character, for the messages that quote a name. *)
Definition dquote : string := String (Ascii.ascii_of_nat 34) EmptyString.

(** ** repository-provider.js *)

Module RepositoryProvider.

(** The shared [PromiseQueueByKey] instance of the module
    ([const queue = new PromiseQueueByKey()]). *)
Inductive QueueRef := queue.

(** What a repository object does when asked to [create] an entity in a
    collection: the call may throw, or return a promise. *)
Record OfflineRepository := {
  repo_kind : string;
  repo_create : string -> Value -> JsError + Promise Value
}.

(** A builder is an arbitrary function of the queue; calling it may throw. *)
Abbreviation Builder := (QueueRef -> JsError + OfflineRepository).

(** A repository instance: the object a builder returned, with the
    address it was allocated at (object identity). *)
Record Repo := {
  repo_addr : nat;
  repo_obj : OfflineRepository
}.

Inductive Event :=
| EvBuild (storageProvider : string) (addr : nat)
| EvProbe (addr : nat) (collection : string) (entity : Value).

(** [Client.sharedInstance().storage]: one identifier or an array. *)
Inductive StorageSetting :=
| OneStorage (storageProvider : string)
| ManyStorages (storagePrecedence : list string).

Record Client := { storage : StorageSetting }.

(** A promise returned by [_chooseOfflineRepo], as an object. The
    [reduce] has attached one [catch] handler per identifier and the
    final [catch] behind them; none of them has run when the call
    returns, they run one after the other later on.
    [Pending result handlers]: the chain has got as far as [result], the
    handlers of the identifiers [handlers] and the final handler have not
    run yet. *)
Inductive ChainState :=
| Pending (result : Promise Repo) (handlers : list string)
| Settled (outcome : Promise Repo).

(** The module-level variables, and the effects of the module observed
    from outside: the objects built so far, the probes written, and the
    promises that [_chooseOfflineRepo] has returned. [_chosenRepoPromise]
    holds a promise by identity, its index among [chains]. The own
    properties of the object [_availableStorages] are the entries of the
    map; the object is a plain one, whose prototype is
    [Object.prototype]. *)
Record State := {
  _chosenRepoPromise : option nat;
  _availableStorages : gmap string Builder;
  allocated : nat;
  trace : list Event;
  chains : list ChainState
}.

Definition StorageProvider_Memory : string := "Memory".

Definition inmemoryRepoBuilder : Builder :=
  fun _ => inr {| repo_kind := "InmemoryOfflineRepository";
                  repo_create := fun _ entity => inr (Fulfilled entity) |}.

Definition initial_state : State :=
  {| _chosenRepoPromise := None;
     _availableStorages := {[ StorageProvider_Memory := inmemoryRepoBuilder ]};
     allocated := 0;
     trace := [];
     chains := [] |}.

(** Modelled from the spec: [ensureArray] of [core/utils] is not among the
    sources; the selector takes a list of identifiers, and callers
    typically supply a single one, which is wrapped. *)
Definition ensureArray (v : StorageSetting) : list string :=
  match v with
  | OneStorage sp => [sp]
  | ManyStorages l => l
  end.

Definition _getRepoType (client : Client) : StorageSetting := storage client.

Definition log (ev : Event) : Exc State unit :=
  fun s => (inr tt, {| _chosenRepoPromise := _chosenRepoPromise s;
                       _availableStorages := _availableStorages s;
                       allocated := allocated s;
                       trace := trace s ++ [ev];
                       chains := chains s |}).

Definition alloc : Exc State nat :=
  fun s => (inr (allocated s),
            {| _chosenRepoPromise := _chosenRepoPromise s;
               _availableStorages := _availableStorages s;
               allocated := S (allocated s);
               trace := trace s;
               chains := chains s |}).

Definition unavailable_msg (storageProvider : string) : string :=
  "The requested storage provider " +:+ dquote +:+ storageProvider +:+ dquote
  +:+ " is not available in this environment".

Definition none_supported_msg : string :=
  "None of the selected storage providers are supported in this environment.".

(** A value that is not a repository: it has no method [create], so
    that [repo.create(...)] throws. *)
Definition not_a_repository (kind : string) : OfflineRepository :=
  {| repo_kind := kind;
     repo_create := fun _ _ => inl (TypeError "repo.create is not a function") |}.

(** Modelled from the spec: the class of the queue is not among the
    sources; the queue offers the enqueueing of operations under a key
    and has no method [create], so that it is not a repository. *)
Definition queue_as_repository : OfflineRepository :=
  not_a_repository "PromiseQueueByKey".

(** The members of [Object.prototype], each by what the call
    [repoBuilder(queue)] does when [repoBuilder] is that member. The
    module is in strict mode, so [this] is [undefined] in the call:
    [toString] returns the string [[object Undefined]], [constructor]
    (which is [Object]) returns its argument, the queue, and the other
    functions throw when they convert [this] to an object. [__proto__]
    reads as the prototype itself, which is an object and cannot be
    called. *)
Definition Object_prototype (name : string) : option Builder :=
  if existsb (String.eqb name)
       ["toLocaleString"; "valueOf"; "hasOwnProperty"; "isPrototypeOf";
        "propertyIsEnumerable"; "__defineGetter__"; "__defineSetter__";
        "__lookupGetter__"; "__lookupSetter__"]
  then Some (fun _ => inl (TypeError "Cannot convert undefined or null to object"))
  else if String.eqb name "__proto__"
  then Some (fun _ => inl (TypeError "repoBuilder is not a function"))
  else if String.eqb name "toString"
  then Some (fun _ => inr (not_a_repository "[object Undefined]"))
  else if String.eqb name "constructor"
  then Some (fun _ => inr queue_as_repository)
  else None.

(** [object[name]] on a plain object: an own property, or else what the
    prototype has under that name. *)
Definition get_property (object : gmap string Builder) (name : string)
  : option Builder :=
  match object !! name with
  | Some v => Some v
  | None => Object_prototype name
  end.

Section Selector.

(** [testSupportCollection] is imported from [./utils], which is not among
    the sources. *)
Variable testSupportCollection : string.

Definition probe_entity : Value := VObj [("_id", VStr "1")].

Local Open Scope js_scope.

Definition _testRepoSupport (repo : Repo) : Exc State (Promise Value) :=
  log (EvProbe (repo_addr repo) testSupportCollection probe_entity) ;;;
  match repo_create (repo_obj repo) testSupportCollection probe_entity with
  | inl e => throw e
  | inr p => ret p
  end.

Definition _getRepoForStorageProvider (storageProvider : string)
  : Exc State Repo :=
  fun s =>
    match get_property (_availableStorages s) storageProvider with
    | None => throw (KinveyError (unavailable_msg storageProvider)) s
    | Some repoBuilder =>
        match repoBuilder queue with
        | inl e => throw e s
        | inr obj =>
            (addr <- alloc ;;
             log (EvBuild storageProvider addr) ;;;
             ret {| repo_addr := addr; repo_obj := obj |}) s
        end
    end.

(** One round of the [reduce] callback. *)
Definition try_next (result : Promise Repo) (storageProvider : string)
  : State -> Promise Repo * State :=
  promise_catch result (fun _ =>
    repo <- _getRepoForStorageProvider storageProvider ;;
    p <- _testRepoSupport repo ;;
    ret (promise_then p (fun _ => repo))).

(** [array.reduce(f, init)] with a callback that has effects. *)
Fixpoint reduce {A B S} (f : B -> A -> S -> B * S) (l : list A) (acc : B)
  : S -> B * S :=
  fun s => match l with
           | [] => (acc, s)
           | x :: rest => let '(acc', s') := f acc x s in reduce f rest acc' s'
           end.

Definition _getFirstSupportedRepo (storagePrecedence : list string)
  : State -> Promise Repo * State :=
  reduce try_next storagePrecedence (Rejected NoReason).

(** The whole chain of [_chooseOfflineRepo], run from its first handler
    to its last in the state [s]: what the promise settles to when the
    builders are not replaced while the chain runs. *)
Definition _chooseOfflineRepo (client : Client)
  : State -> Promise Repo * State :=
  fun s =>
    let storagePrecedence := ensureArray (_getRepoType client) in
    let '(p, s') := _getFirstSupportedRepo storagePrecedence s in
    promise_catch p (fun _ =>
      ret (Rejected (KinveyError none_supported_msg))) s'.

(** *** The exported functions, as the host calls them *)

Definition set_chains (l : list ChainState) (s : State) : State :=
  {| _chosenRepoPromise := _chosenRepoPromise s;
     _availableStorages := _availableStorages s;
     allocated := allocated s;
     trace := trace s;
     chains := l |}.

(** The call [_chooseOfflineRepo()] itself: it reads the setting of the
    client, attaches the handlers and returns the last promise of the
    chain, which is pending. The chain starts from [Promise.reject()]. *)
Definition _chooseOfflineRepo_call (client : Client) : State -> nat * State :=
  fun s =>
    let storagePrecedence := ensureArray (_getRepoType client) in
    (length (chains s),
     set_chains (chains s ++ [Pending (Rejected NoReason) storagePrecedence]) s).

(** A promise object is truthy, whatever its state. *)
Definition getOfflineRepository (client : Client) : State -> nat * State :=
  fun s =>
    match _chosenRepoPromise s with
    | Some p => (p, s)
    | None =>
        let '(p, s') := _chooseOfflineRepo_call client s in
        (p, {| _chosenRepoPromise := Some p;
               _availableStorages := _availableStorages s';
               allocated := allocated s';
               trace := trace s';
               chains := chains s' |})
    end.

Definition setSupportedRepoBuilders (repos : gmap string Builder)
  : State -> State :=
  fun s => {| _chosenRepoPromise := _chosenRepoPromise s;
              _availableStorages := repos;
              allocated := allocated s;
              trace := trace s;
              chains := chains s |}.

(** The next handler of the chain behind promise [p] runs, in the state
    of that moment: the handler of the next identifier (one round of the
    [reduce] callback), or, when none is left, the final handler, which
    settles the promise. Handlers run after the call that attached them
    has returned. The write of the probe settles some time after the
    handler that started it; a step here takes the handler together with
    the settling of its probe, which reads nothing of the module. *)
Definition run_handler (p : nat) : State -> State :=
  fun s =>
    match chains s !! p with
    | Some (Pending result (storageProvider :: handlers)) =>
        let '(result', s') := try_next result storageProvider s in
        set_chains (<[p := Pending result' handlers]> (chains s')) s'
    | Some (Pending result []) =>
        let '(outcome, s') :=
          promise_catch result (fun _ =>
            ret (Rejected (KinveyError none_supported_msg))) s in
        set_chains (<[p := Settled outcome]> (chains s')) s'
    | _ => s
    end.

(** lodash [keys]; the order of the keys is that of the map. *)
Definition getSupportedStorages (s : State) : list string :=
  (map_to_list (_availableStorages s)).*1.

(** *** Vocabulary of the properties *)

(** The liveness probe of an identifier succeeds: a builder is
    registered for it, the builder returns a repository, and the write of
    the test record into that repository fulfils. *)
Definition supported (available : gmap string Builder) (storageProvider : string)
  : bool :=
  match available !! storageProvider with
  | Some repoBuilder =>
      match repoBuilder queue with
      | inr obj =>
          match repo_create obj testSupportCollection probe_entity with
          | inr (Fulfilled _) => true
          | _ => false
          end
      | inl _ => false
      end
  | None => false
  end.

(** What happens to the module, in sequence: the calls a host makes on
    the exported object, and in between, in any order, the handlers of
    the chain that run. [run_calls] answers with the promises that the
    calls of [getOfflineRepository] returned. *)
Inductive Call :=
| Call_getOfflineRepository (client : Client)
| Call_setSupportedRepoBuilders (repos : gmap string Builder)
| Run_handler (p : nat).

Fixpoint run_calls (calls : list Call) (s : State) : list nat * State :=
  match calls with
  | [] => ([], s)
  | Call_getOfflineRepository client :: rest =>
      let '(p, s') := getOfflineRepository client s in
      let '(ps, s'') := run_calls rest s' in
      (p :: ps, s'')
  | Call_setSupportedRepoBuilders repos :: rest =>
      run_calls rest (setSupportedRepoBuilders repos s)
  | Run_handler p :: rest => run_calls rest (run_handler p s)
  end.

(** The state of promise [p]. *)
Definition outcome_of (p : nat) (s : State) : option (Promise Repo) :=
  match chains s !! p with
  | Some (Settled outcome) => Some outcome
  | _ => None
  end.

(** The identifiers for which a repository was built, in order. *)
Definition built (trace : list Event) : list string :=
  omap (fun ev => match ev with
                  | EvBuild storageProvider _ => Some storageProvider
                  | EvProbe _ _ _ => None
                  end) trace.

(** The module after the first call of [getOfflineRepository]: the
    promise stored is the one promise there is, and the repositories
    built so far are for identifiers of the list [L] that the first call
    read, each position of the list at most once, in the order of the
    list. *)
Definition started (L : list string) (s : State) : Prop :=
  _chosenRepoPromise s = Some 0
  /\ exists chain,
       chains s = [chain]
       /\ match chain with
          | Pending _ handlers =>
              exists done, L = done ++ handlers
                           /\ built (trace s) `sublist_of` done
          | Settled _ => built (trace s) `sublist_of` L
          end.

(** The module before that call. *)
Definition fresh (s : State) : Prop :=
  _chosenRepoPromise s = None /\ chains s = [] /\ trace s = [].

End Selector.

(** A builder whose repository rejects every write. *)
Definition failingRepoBuilder : Builder :=
  fun _ => inr {| repo_kind := "Unsupported";
                  repo_create := fun _ _ =>
                    inr (Rejected (OtherError "storage is not writable")) |}.

End RepositoryProvider.

(** ** rack/middleware/cache.js *)

Module Cache.

Definition idAttribute : string := "_id".
Definition kmdAttribute : string := "_kmd".

(** *** Queries *)

(** Modelled from the spec: the [Query] class ([../../query]) is not among
    the sources. A query is a predicate/sort/limit/skip specification
    that is processed against a list of records after retrieval. *)
Record Query := {
  q_filter : Value -> bool;
  q_sort : option (Value -> Value -> bool);
  q_limit : option nat;
  q_skip : nat
}.

Fixpoint insert_by (le : Value -> Value -> bool) (x : Value) (l : list Value)
  : list Value :=
  match l with
  | [] => [x]
  | y :: rest => if le x y then x :: y :: rest else y :: insert_by le x rest
  end.

Definition sort_by (le : Value -> Value -> bool) (l : list Value) : list Value :=
  foldr (insert_by le) [] l.

(** Modelled from the spec: [Query.prototype._process], a pure function;
    it keeps the records that satisfy the predicate, sorts them, and then
    applies the window given by skip and limit. *)
Definition _process (q : Query) (entities : list Value) : list Value :=
  let matched := List.filter (q_filter q) entities in
  let sorted := match q_sort q with
                | Some le => sort_by le matched
                | None => matched
                end in
  let skipped := drop (q_skip q) sorted in
  match q_limit q with
  | Some n => take n skipped
  | None => skipped
  end.

(** The [query] argument of the cache operations: absent, an instance of
    [Query] (an object the caller holds a reference to), or a plain object
    that describes a query. *)
Inductive QueryArg :=
| QAbsent
| QInstance (ref : nat)
| QPlain (spec : Query).

(** *** Storage adapters *)

(** The capability set of a storage adapter over a backend state [St].
    A call either throws or returns a promise; its effect on the backend
    is the new state. The adapters themselves ([./adapters/...]) are not
    among the sources. *)
Record Adapter (St : Type) := {
  adapter_find : Value -> St -> (JsError + Promise (list Value)) * St;
  adapter_findById : Value -> Value -> St -> (JsError + Promise Value) * St;
  adapter_save :
    Value -> list Value -> St -> (JsError + Promise (list Value)) * St;
  adapter_removeById : Value -> Value -> St -> (JsError + Promise Value) * St
}.
Arguments adapter_find {St}.
Arguments adapter_findById {St}.
Arguments adapter_save {St}.
Arguments adapter_removeById {St}.

Inductive AdapterCall :=
| CallFind (collection : Value)
| CallFindById (collection id : Value)
| CallSave (collection : Value) (entities : list Value)
| CallRemoveById (collection id : Value).

(** Enum for DB adapters. *)
Inductive DBAdapter := IndexedDB | LocalStorage | Memory | WebSQL.

Definition DBAdapter_name (a : DBAdapter) : string :=
  match a with
  | IndexedDB => "IndexedDB"
  | LocalStorage => "LocalStorage"
  | Memory => "Memory"
  | WebSQL => "WebSQL"
  end.

Definition DBAdapter_of_name (s : string) : option DBAdapter :=
  if String.eqb s "IndexedDB" then Some IndexedDB
  else if String.eqb s "LocalStorage" then Some LocalStorage
  else if String.eqb s "Memory" then Some Memory
  else if String.eqb s "WebSQL" then Some WebSQL
  else None.

Inductive LogEntry :=
| Log_warn (msg : string)
| Log_error (msg : string).

(** The world a [DB] instance runs in: the backend, the adapter calls
    made so far, the [Query] instances alive (by reference), and the
    number of [Math.random()] calls made so far. *)
Record World (St : Type) := {
  store : St;
  calls : list AdapterCall;
  queries : gmap nat Query;
  draws : nat
}.
Arguments store {St}.
Arguments calls {St}.
Arguments queries {St}.
Arguments draws {St}.

Record DB (St : Type) := { adapter : option (Adapter St) }.
Arguments adapter {St}.

Inductive RequestMethod := GET | POST | PATCH | PUT | DELETE.

Inductive StatusCode := Ok | Created.

Record Response := {
  statusCode : StatusCode;
  headers : Value;
  data : Value
}.

Record Request := {
  method : RequestMethod;
  query : QueryArg;
  body : Value;
  collectionName : Value;
  entityId : Value;
  appKey : Value;
  response : option Response
}.

(** The members that class [DB] declares, with the instance field set by
    its constructor. *)
Definition DB_members : list string :=
  ["constructor"; "adapter"; "objectIdPrefix"; "generateObjectId"; "find";
   "count"; "group"; "findById"; "save"; "remove"; "removeById"].

Section Engine.

Context {St : Type}.

(** The environment: which adapters the platform supports, how they are
    constructed, and the outcome of the [n]-th call of [Math.random()],
    scaled. *)
Variable isSupported : DBAdapter -> bool.
Variable new_adapter : DBAdapter -> Value -> Adapter St.
Variable Math_random : nat -> nat.

(** [Aggregation.prototype.process] and [KinveyMiddleware.prototype.handle]
    are imported from files that are not among the sources. *)
Variable Aggregation_process : Value -> list Value -> JsError + Value.
Variable super_handle : Request -> Promise Request.

Local Open Scope js_scope.

(** **** constructor *)

Definition default_adapters : Value :=
  VArr [VStr "IndexedDB"; VStr "WebSQL"; VStr "LocalStorage"; VStr "Memory"].

(** The callback of [forEach(adapters, ...)]: [Some a] when it assigns
    [this.adapter] and returns [false], which ends the iteration. The
    warning for an entry that is not a string leaves the entry out. *)
Definition select_adapter (adapter : Value) : option DBAdapter * list LogEntry :=
  match adapter with
  | VStr s =>
      match DBAdapter_of_name s with
      | Some a => (if isSupported a then Some a else None, [])
      | None => (None, [Log_warn ("The " +:+ s +:+ " adapter is is not recognized.")])
      end
  | _ => (None, [Log_warn "The adapter is is not recognized."])
  end.

Fixpoint forEach_adapters (adapters : list Value)
  : option DBAdapter * list LogEntry :=
  match adapters with
  | [] => (None, [])
  | adapter :: rest =>
      match select_adapter adapter with
      | (Some a, logs) => (Some a, logs)
      | (None, logs) =>
          let '(r, logs') := forEach_adapters rest in (r, logs ++ logs')
      end
  end.

(** [new DB(name, adapters)]: the adapter chosen, if any, and what was
    logged. *)
Definition DB_constructor_choice (adapters : Value)
  : option DBAdapter * list LogEntry :=
  let adapters := match adapters with VUndefined => default_adapters | v => v end in
  let adapters := match adapters with VArr l => l | v => [v] end in
  match forEach_adapters adapters with
  | (Some a, logs) => (Some a, logs)
  | (None, logs) =>
      if isSupported Memory then
        (Some Memory,
         logs ++ [Log_error ("Provided adapters are unsupported on this platform. "
                             +:+ "Defaulting to the Memory adapter.")])
      else
        (None,
         logs ++ [Log_error "Provided adapters are unsupported on this platform."])
  end.

Definition DB_constructor (name : Value) (adapters : Value)
  : DB St * list LogEntry :=
  let '(choice, logs) := DB_constructor_choice adapters in
  ({| adapter := (fun a => new_adapter a name) <$> choice |}, logs).

(** **** helpers *)

Definition set_store (st : St) (c : AdapterCall) (w : World St) : World St :=
  {| store := st; calls := calls w ++ [c]; queries := queries w;
     draws := draws w |}.

Definition set_queries (h : gmap nat Query) (w : World St) : World St :=
  {| store := store w; calls := calls w; queries := h; draws := draws w |}.

(** A method call on [this.adapter]; the field is [undefined] when the
    constructor found no adapter. *)
Definition call_adapter {A} (db : DB St) (c : AdapterCall) (name : string)
    (m : Adapter St -> St -> (JsError + A) * St) : Exc (World St) A :=
  fun w =>
    match adapter db with
    | None =>
        (inl (TypeError ("Cannot read property '" +:+ name +:+ "' of undefined")), w)
    | Some a => let '(r, st') := m a (store w) in (r, set_store st' c w)
    end.

(** A call of one of the [async] methods below: it never throws, it
    returns a promise. *)
Definition call_async {S A} (f : S -> Promise A * S) : Exc S (Promise A) :=
  fun s => let '(p, s') := f s in (inr p, s').

(** [new Query(spec)]: a fresh instance holding the fields of [spec]. *)
Definition new_Query (spec : Query) : Exc (World St) nat :=
  fun w => let ref := fresh (dom (queries w)) in
           (inr ref, set_queries (<[ref := spec]> (queries w)) w).

(** [if (query && !(query instanceof Query)) query = new Query(...)] *)
Definition ensure_Query (query : QueryArg) : Exc (World St) QueryArg :=
  match query with
  | QPlain spec => ref <- new_Query spec ;; ret (QInstance ref)
  | _ => ret query
  end.

(** [query._process(entities)] on an instance. *)
Definition Query_process (ref : nat) (entities : list Value)
  : Exc (World St) (list Value) :=
  fun w => match queries w !! ref with
           | Some q => (inr (_process q entities), w)
           | None => (inl (TypeError "query._process is not a function"), w)
           end.

(** [entity[key]] on a value: reading a property of [undefined] or [null]
    throws, a primitive has no own properties. *)
Definition get_prop (key : string) (v : Value) : JsError + Value :=
  match v with
  | VObj fields => inr (get_field key fields)
  | VUndefined | VNull =>
      inl (TypeError ("Cannot read property '" +:+ key +:+ "' of undefined"))
  | _ => inr VUndefined
  end.

(** **** generateObjectId *)

Definition objectIdPrefix : string := EmptyString.

Definition chars : string := "abcdef0123456789".

(** [Math.floor(Math.random() * j)] *)
Definition random_below (j : nat) : Exc (World St) nat :=
  fun w => (inr (Math_random (draws w) mod j)%nat,
            {| store := store w; calls := calls w; queries := queries w;
               draws := S (draws w) |}).

Fixpoint generateObjectId_loop (remaining : nat) (objectId : string)
  : Exc (World St) string :=
  match remaining with
  | O => ret objectId
  | S n =>
      pos <- random_below (String.length chars) ;;
      generateObjectId_loop n (objectId +:+ String.substring pos 1 chars)
  end.

Definition generateObjectId (length : nat) : Exc (World St) string :=
  objectId <- generateObjectId_loop length EmptyString ;;
  ret (objectIdPrefix +:+ objectId).

(** **** find, count, group, findById *)

Definition find (db : DB St) (collection : Value) (query : QueryArg)
  : World St -> Promise (list Value) * World St :=
  async (try_catch
    (p <- call_adapter db (CallFind collection) "find"
            (fun a => adapter_find a collection) ;;
     entities <- await p ;;
     query <- ensure_Query query ;;
     entities <- match query with
                 | QInstance ref =>
                     if (0 <? length entities)%nat
                     then Query_process ref entities
                     else ret entities
                 | _ => ret entities
                 end ;;
     ret (Fulfilled entities))
    (fun error =>
       if instanceof_NotFoundError error then ret (Fulfilled [])
       else throw error)).

Definition count (db : DB St) (collection : Value) (query : QueryArg)
  : World St -> Promise Value * World St :=
  async
    (p <- call_async (find db collection query) ;;
     entities <- await p ;;
     ret (Fulfilled (VObj [("count", VNum (Z.of_nat (length entities)))]))).

Definition group (db : DB St) (collection : Value) (aggregation : Value)
  : World St -> Promise Value * World St :=
  async
    (p <- call_async (find db collection QAbsent) ;;
     entities <- await p ;;
     if (0 <? length entities)%nat then
       match Aggregation_process aggregation entities with
       | inl e => throw e
       | inr v => ret (Fulfilled v)
       end
     else ret (Fulfilled VNull)).

(** The adapter's promise is returned from inside the [try] block
    without [await]. *)
Definition findById (db : DB St) (collection : Value) (id : Value)
  : World St -> Promise Value * World St :=
  async (try_catch
    (if negb (isString id) then throw (KinveyError "id must be a string")
     else call_adapter db (CallFindById collection id) "findById"
            (fun a => adapter_findById a collection id))
    (fun error =>
       if instanceof_NotFoundError error then ret (Fulfilled VUndefined)
       else throw error)).

(** **** save *)

(** [array.map(f)] and lodash [map] with a callback that has effects. *)
Fixpoint map_effect {S A B} (f : A -> Exc S B) (l : list A) : Exc S (list B) :=
  match l with
  | [] => ret []
  | x :: rest => y <- f x ;; ys <- map_effect f rest ;; ret (y :: ys)
  end.

Definition lift {S A} (r : JsError + A) : Exc S A :=
  match r with
  | inl e => throw e
  | inr a => ret a
  end.

(** [kmd.local = true]; the module is in strict mode, so the assignment
    throws on a primitive. Arrays carry no named properties in this
    model and are treated like primitives. *)
Definition set_local (kmd : Value) : JsError + Value :=
  match kmd with
  | VObj fields => inr (VObj (set_field "local" (VBool true) fields))
  | _ => inl (TypeError "Cannot create property 'local'")
  end.

(** The callback of [map(entities, ...)] in [save]. The entity and its
    metadata are updated in place by the source; here the updated record
    is the result. On a primitive the identifier is generated before the
    assignment [entity[idAttribute] = id] throws (strict mode); an array
    handed in as an entity is treated like a primitive. *)
Definition prepare_entity (entity : Value) : Exc (World St) Value :=
  match entity with
  | VObj fields =>
      let id := get_field idAttribute fields in
      let kmd := if truthy (get_field kmdAttribute fields)
                 then get_field kmdAttribute fields else VObj [] in
      r <- (if negb (truthy id) then
              id' <- generateObjectId 24 ;;
              kmd' <- lift (set_local kmd) ;;
              ret (VStr id', kmd')
            else ret (id, kmd)) ;;
      ret (VObj (set_field kmdAttribute (snd r)
                   (set_field idAttribute (fst r) fields)))
  | VUndefined | VNull =>
      throw (TypeError "Cannot read property '_id' of undefined")
  | _ =>
      generateObjectId 24 ;;;
      throw (TypeError "Cannot create property '_id'")
  end.

Definition save (db : DB St) (collection : Value) (entities : Value)
  : World St -> Promise Value * World St :=
  async (try_catch
    (let entities := match entities with VUndefined => VArr [] | v => v end in
     if negb (truthy entities) then ret (Fulfilled VNull)
     else
       let singular := negb (isArray entities) in
       let entities := match entities with VArr l => l | v => [v] end in
       entities <- map_effect prepare_entity entities ;;
       p <- call_adapter db (CallSave collection entities) "save"
              (fun a => adapter_save a collection entities) ;;
       entities <- await p ;;
       if singular && (0 <? length entities)%nat
       then ret (Fulfilled (default VUndefined (entities !! 0%nat)))
       else ret (Fulfilled (VArr entities)))
    (fun error => throw error)).

(** **** remove, removeById *)

Definition removeById (db : DB St) (collection : Value) (id : Value)
  : World St -> Promise Value * World St :=
  async (try_catch
    (if negb (truthy id) then ret (Fulfilled VUndefined)
     else if negb (isString id) then throw (KinveyError "id must be a string")
     else call_adapter db (CallRemoveById collection id) "removeById"
            (fun a => adapter_removeById a collection id))
    (fun error => throw error)).

(** [Promise.all]: all the values, or the first rejection. *)
Fixpoint Promise_all {A} (ps : list (Promise A)) : Promise (list A) :=
  match ps with
  | [] => Fulfilled []
  | Rejected e :: _ => Rejected e
  | Fulfilled a :: rest =>
      match Promise_all rest with
      | Fulfilled l => Fulfilled (a :: l)
      | Rejected e => Rejected e
      end
  end.

(** [query.sort = null; query.limit = null; query.skip = 0;] *)
Definition reset_window (q : Query) : Query :=
  {| q_filter := q_filter q; q_sort := None; q_limit := None; q_skip := 0 |}.

Definition discard_window (query : QueryArg) : Exc (World St) unit :=
  fun w => match query with
           | QInstance ref =>
               (inr tt, set_queries (alter reset_window ref (queries w)) w)
           | _ => (inr tt, w)
           end.

(** The callback of [entities.map(...)] in [remove]:
    [entity => this.removeById(collection, entity[idAttribute])]. *)
Definition remove_entity (db : DB St) (collection : Value) (entity : Value)
  : Exc (World St) (Promise Value) :=
  id <- lift (get_prop idAttribute entity) ;;
  call_async (removeById db collection id).

Definition remove (db : DB St) (collection : Value) (query : QueryArg)
  : World St -> Promise (list Value) * World St :=
  async (try_catch
    (query <- ensure_Query query ;;
     discard_window query ;;;
     p <- call_async (find db collection query) ;;
     entities <- await p ;;
     promises <- map_effect (remove_entity db collection) entities ;;
     responses <- await (Promise_all promises) ;;
     ret (Fulfilled (foldl (fun entities entity => entities ++ [entity]) []
                       responses)))
    (fun error => throw error)).

(** **** CacheMiddleware.handle *)

(** [db.clear()]: class [DB] declares no member of that name, so the
    property reads as [undefined] and the call throws. *)
Definition db_clear (db : DB St) : Exc (World St) (Promise Value) :=
  if bool_decide ("clear" ∈ DB_members) then ret (Fulfilled VUndefined)
  else throw (TypeError "db.clear is not a function").

Definition is_str (v : Value) (s : string) : bool :=
  match v with VStr s' => String.eqb s' s | _ => false end.

Definition handle (adapters : Value) (request : Request)
  : World St -> Promise Request * World St :=
  async
    (request <- await (super_handle request) ;;
     let db := fst (DB_constructor (appKey request) adapters) in
     data <-
       match method request with
       | GET =>
           if truthy (entityId request) then
             if is_str (entityId request) "_count" then
               p <- call_async (count db (collectionName request) (query request)) ;;
               await p
             else if is_str (entityId request) "_group" then
               p <- call_async (group db (collectionName request) (body request)) ;;
               await p
             else
               p <- call_async (findById db (collectionName request)
                                  (entityId request)) ;;
               await p
           else
             p <- call_async (find db (collectionName request) (query request)) ;;
             entities <- await p ;;
             ret (VArr entities)
       | POST | PUT =>
           p <- call_async (save db (collectionName request) (body request)) ;;
           await p
       | DELETE =>
           if truthy (collectionName request) && truthy (entityId request) then
             p <- call_async (removeById db (collectionName request)
                                (entityId request)) ;;
             await p
           else if negb (truthy (collectionName request)) then
             p <- db_clear db ;;
             await p
           else
             p <- call_async (remove db (collectionName request) (query request)) ;;
             entities <- await p ;;
             ret (VArr entities)
       | PATCH => ret VUndefined
       end ;;
     ret (Fulfilled
            {| method := method request;
               query := query request;
               body := body request;
               collectionName := collectionName request;
               entityId := entityId request;
               appKey := appKey request;
               response :=
                 Some {| statusCode := match method request with
                                       | POST => Created
                                       | _ => Ok
                                       end;
                         headers := VObj [];
                         data := data |} |})).

End Engine.

(** *** Vocabulary of the properties *)

Definition is_record (v : Value) : bool :=
  match v with VObj _ => true | _ => false end.

(** A record as a caller hands it to [save]: an object whose metadata,
    when present, is an object. *)
Definition well_formed_record (v : Value) : bool :=
  match v with
  | VObj fields =>
      match get_field kmdAttribute fields with
      | VObj _ | VUndefined | VNull => true
      | _ => false
      end
  | _ => false
  end.

Definition id_of (v : Value) : Value :=
  match v with
  | VObj fields => get_field idAttribute fields
  | _ => VUndefined
  end.

(** A record as the data model has it once stored: its identifier is a
    non-empty string. *)
Definition stored_record (v : Value) : bool :=
  is_record v && isString (id_of v) && truthy (id_of v).

(** The adapter's [save], given records, fulfils with as many records as
    it was given. *)
Definition save_answers_with_records {St} (a : Adapter St) : Prop :=
  forall collection entities st,
    Forall (fun r => is_record r = true) entities ->
    exists saved st',
      adapter_save a collection entities st = (inr (Fulfilled saved), st')
      /\ length saved = length entities
      /\ Forall (fun r => is_record r = true) saved.

(** The adapter's [removeById] answers with a promise. *)
Definition removeById_returns_promise {St} (a : Adapter St) : Prop :=
  forall collection id st,
    exists p st', adapter_removeById a collection id st = (inr p, st').

(** Removal as the design document words it: each of the given
    identifiers is removed through the adapter, one after the other, and
    the answers are collected. *)
Fixpoint removeById_each {St} (a : Adapter St) (collection : Value)
    (ids : list Value) (st : St) : list (Promise Value) * St :=
  match ids with
  | [] => ([], st)
  | id :: rest =>
      let '(r, st') := adapter_removeById a collection id st in
      let '(ps, st'') := removeById_each a collection rest st' in
      (match r with inr p => p | inl e => Rejected e end :: ps, st'')
  end.

(** The predicate a [query] argument stands for. *)
Definition query_predicate {St} (query : QueryArg) (w : World St)
  : option (Value -> bool) :=
  match query with
  | QAbsent => Some (fun _ => true)
  | QInstance ref => q_filter <$> queries w !! ref
  | QPlain spec => Some (q_filter spec)
  end.

(** *** An in-memory adapter *)

(** Modelled from the spec: the adapters ([./adapters/memory] and the
    others) are not among the sources. The in-memory table keeps, per
    collection name, one record per identifier; [findById] and
    [removeById] reject with Not-Found for an identifier that is not
    stored, [removeById] answers with the removed record. *)
Abbreviation MemoryStore := (gmap string (list Value)).

Definition has_id (id : Value) (entity : Value) : bool :=
  match entity, id with
  | VObj fields, VStr b =>
      match get_field idAttribute fields with
      | VStr a => String.eqb a b
      | _ => false
      end
  | _, _ => false
  end.

Definition table (collection : Value) (st : MemoryStore) : list Value :=
  match collection with
  | VStr c => default [] (st !! c)
  | _ => []
  end.

Definition set_table (collection : Value) (rows : list Value) (st : MemoryStore)
  : MemoryStore :=
  match collection with
  | VStr c => <[c := rows]> st
  | _ => st
  end.

Definition upsert (rows : list Value) (entity : Value) : list Value :=
  match entity with
  | VObj fields =>
      List.filter (fun e => negb (has_id (get_field idAttribute fields) e)) rows
      ++ [entity]
  | _ => rows ++ [entity]
  end.

Definition Memory_adapter : Adapter MemoryStore :=
  {| adapter_find := fun collection st =>
       (inr (Fulfilled (table collection st)), st);
     adapter_findById := fun collection id st =>
       match List.find (has_id id) (table collection st) with
       | Some entity => (inr (Fulfilled entity), st)
       | None => (inr (Rejected (NotFoundError "entity not found")), st)
       end;
     adapter_save := fun collection entities st =>
       (inr (Fulfilled entities),
        set_table collection (foldl upsert (table collection st) entities) st);
     adapter_removeById := fun collection id st =>
       match List.find (has_id id) (table collection st) with
       | Some entity =>
           (inr (Fulfilled entity),
            set_table collection
              (List.filter (fun e => negb (has_id id e)) (table collection st))
              st)
       | None => (inr (Rejected (NotFoundError "entity not found")), st)
       end |}.

Definition Memory_DB : DB MemoryStore := {| adapter := Some Memory_adapter |}.

Definition empty_world : World MemoryStore :=
  {| store := ∅; calls := []; queries := ∅; draws := 0 |}.

(** An adapter none of whose operations succeeds: each returns a promise
    rejected with [e] and leaves the backend alone. *)
Definition Rejecting_adapter (e : JsError) : Adapter MemoryStore :=
  {| adapter_find := fun _ st => (inr (Rejected e), st);
     adapter_findById := fun _ _ st => (inr (Rejected e), st);
     adapter_save := fun _ _ st => (inr (Rejected e), st);
     adapter_removeById := fun _ _ st => (inr (Rejected e), st) |}.

(** *** Further vocabulary *)

(** A string of characters of the alphabet of [generateObjectId]. *)
Definition is_hex_char (c : Ascii.ascii) : bool :=
  existsb (Ascii.eqb c) (String.list_ascii_of_string chars).

Fixpoint is_hex (s : string) : bool :=
  match s with
  | EmptyString => true
  | String c rest => is_hex_char c && is_hex rest
  end.

(** What [save] makes of a record before it hands it to the adapter. *)
Definition prepared_from (record prepared : Value) : Prop :=
  exists fields fields',
    record = VObj fields /\ prepared = VObj fields'
    /\ (forall k, k <> idAttribute -> k <> kmdAttribute ->
         get_field k fields' = get_field k fields)
    /\ if truthy (get_field idAttribute fields)
       then get_field idAttribute fields' = get_field idAttribute fields
            /\ get_field kmdAttribute fields'
               = (if truthy (get_field kmdAttribute fields)
                  then get_field kmdAttribute fields else VObj [])
       else exists id kmd,
              get_field idAttribute fields' = VStr id
              /\ String.length id = 24 /\ is_hex id = true
              /\ get_field kmdAttribute fields' = VObj kmd
              /\ get_field "local" kmd = VBool true.

(** An entry of the [adapters] argument that names an adapter the
    platform supports. *)
Definition names_supported (isSupported : DBAdapter -> bool) (v : Value)
  : bool :=
  match v with
  | VStr s =>
      match DBAdapter_of_name s with
      | Some a => isSupported a
      | None => false
      end
  | _ => false
  end.

(** The world after [n] more calls of [Math.random()]. *)
Definition add_draws {St} (n : nat) (w : World St) : World St :=
  {| store := store w; calls := calls w; queries := queries w;
     draws := draws w + n |}.

(** An identifier that [removeById] passes on to the adapter. *)
Definition removable_id (id : Value) : bool := truthy id && isString id.

(** An identifier that [removeById] refuses. *)
Definition invalid_id (id : Value) : bool := truthy id && negb (isString id).

(** What [remove] collects for the records it has found, in their
    order: [undefined] for a record without identifier, the refusal for
    an identifier that is not a string, and otherwise what the adapter's
    [removeById] answers, the adapter being asked for one record after
    the other. *)
Fixpoint remove_answers {St} (a : Adapter St) (collection : Value)
    (targets : list Value) (st : St) : list (Promise Value) :=
  match targets with
  | [] => []
  | entity :: rest =>
      if removable_id (id_of entity) then
        let '(r, st') := adapter_removeById a collection (id_of entity) st in
        match r with inr p => p | inl e => Rejected e end
        :: remove_answers a collection rest st'
      else if invalid_id (id_of entity) then
        Rejected (KinveyError "id must be a string")
        :: remove_answers a collection rest st
      else Fulfilled VUndefined :: remove_answers a collection rest st
  end.

End Cache.

(** ** requests/local.js: the active user *)

Module LocalRequest.

(** The [local-storage] package, over a state [L] of the browser's
    storage: every operation may throw. *)
Record LocalStorage (L : Type) := {
  localStorage_get : string -> L -> JsError + Value;
  localStorage_set : string -> Value -> L -> (JsError + unit) * L;
  localStorage_remove : string -> L -> (JsError + unit) * L
}.
Arguments localStorage_get {L}.
Arguments localStorage_set {L}.
Arguments localStorage_remove {L}.

(** The options a request is constructed with; [url.format] is applied
    to the protocol, the host and the path. *)
Record RequestOptions := {
  options_method : Cache.RequestMethod;
  options_protocol : Value;
  options_host : Value;
  options_pathname : string;
  options_body : Value
}.

(** The static field [LocalRequest.activeUsers], the browser's storage,
    the state [C] of what executes requests, and the requests executed
    so far. *)
Record State (L C : Type) := {
  storage : L;
  activeUsers : gmap string Value;
  cache : C;
  executed : list RequestOptions
}.
Arguments storage {L C}.
Arguments activeUsers {L C}.
Arguments cache {L C}.
Arguments executed {L C}.

(** [p.then(f)] for a callback that may throw or have effects. *)
Definition promise_then_exc {S A B} (p : Promise A)
    (f : A -> Exc S (Promise B)) : S -> Promise B * S :=
  match p with
  | Fulfilled a => async (f a)
  | Rejected e => fun s => (Rejected e, s)
  end.

Section ActiveUser.

Context {L C : Type}.

(** The environment: the storage package, the imported [client] object
    (its fields), [isDefined] of [utils], the conversion of a value to a
    string in a template literal, the comparison [v > 0], and the
    construction and execution of a request, which may throw or return a
    promise of a response, and works on [C] only. The two names are read
    from [process.env], with [user] and [kinvey_active_user] as
    defaults. *)
Variable localStorage : LocalStorage L.
Variable client : list (string * Value).
Variable isDefined : Value -> bool.
Variable template : Value -> string.
Variable greater_than_zero : Value -> bool.
Variable request_execute : RequestOptions -> C -> (JsError + Promise Value) * C.
Variable usersNamespace : string.
Variable activeUserCollectionName : string.

Local Open Scope js_scope.

Definition appKey : Value := get_field "appKey" client.

(** The key [`${client.appKey}kinvey_user`] of the legacy entry. *)
Definition legacy_key : string := template appKey +:+ "kinvey_user".

Definition set_storage (st : L) (s : State L C) : State L C :=
  {| storage := st; activeUsers := activeUsers s; cache := cache s;
     executed := executed s |}.

Definition set_activeUser (user : Value) (s : State L C) : State L C :=
  {| storage := storage s;
     activeUsers := <[template appKey := user]> (activeUsers s);
     cache := cache s; executed := executed s |}.

(** [new LocalRequest(options)] followed by [request.execute()]. *)
Definition execute (options : RequestOptions)
  : Exc (State L C) (Promise Value) :=
  fun s => let '(r, c) := request_execute options (cache s) in
           (r, {| storage := storage s; activeUsers := activeUsers s;
                  cache := c; executed := executed s ++ [options] |}).

Definition getActiveUser (s : State L C) : Value :=
  default VUndefined (activeUsers s !! template appKey).

Definition getActiveUserLegacy (s : State L C) : Value :=
  match localStorage_get localStorage legacy_key (storage s) with
  | inr v => v
  | inl _ => VNull
  end.

Definition loadActiveUserLegacy (s : State L C) : Value :=
  getActiveUserLegacy s.

Definition setActiveUserLegacy (user : Value) : State L C -> bool * State L C :=
  fun s =>
    match localStorage_remove localStorage legacy_key (storage s) with
    | (inl _, st) => (false, set_storage st s)
    | (inr _, st) =>
        if isDefined user then
          match localStorage_set localStorage legacy_key user st with
          | (inl _, st') => (false, set_storage st' s)
          | (inr _, st') => (true, set_storage st' s)
          end
        else (true, set_storage st s)
    end.

Definition collection_pathname : string :=
  "/" +:+ usersNamespace +:+ "/" +:+ template appKey +:+ "/"
  +:+ activeUserCollectionName.

(** The options of the requests on the collection of the active user. *)
Definition user_request (method : Cache.RequestMethod) (pathname : string)
    (body : Value) : RequestOptions :=
  {| options_method := method;
     options_protocol := get_field "protocol" client;
     options_host := get_field "host" client;
     options_pathname := pathname;
     options_body := body |}.

(** [users.length] and [users[0]]. *)
Definition length_of (users : Value) : JsError + Value :=
  match users with
  | VArr items => inr (VNum (Z.of_nat (length items)))
  | VStr s => inr (VNum (Z.of_nat (String.length s)))
  | _ => Cache.get_prop "length" users
  end.

Definition first_of (users : Value) : Value :=
  match users with
  | VArr items => default VUndefined (items !! 0%nat)
  | VStr (String c _) => VStr (String c EmptyString)
  | VObj fields => get_field "0" fields
  | _ => VUndefined
  end.

(** [response => response.data] *)
Definition response_data (response : Value) : Exc (State L C) (Promise Value) :=
  data <- Cache.lift (Cache.get_prop "data" response) ;;
  ret (Fulfilled data).

(** [p.then(response => response.data)], called from synchronous code. *)
Definition call_then (p : Promise Value) : Exc (State L C) (Promise Value) :=
  fun s => let '(p', s') := promise_then_exc p response_data s in (inr p', s').

Definition loadActiveUser : Exc (State L C) (Promise Value) :=
  p <- execute (user_request Cache.GET collection_pathname VUndefined) ;;
  fun s =>
    let '(p, s) := promise_then_exc p response_data s in
    let '(p, s) :=
      promise_then_exc p (fun users =>
        len <- Cache.lift (length_of users) ;;
        if greater_than_zero len then ret (Fulfilled (first_of users))
        else fun s => (inr (Fulfilled (loadActiveUserLegacy s)), s)) s in
    let '(p, s) := promise_catch p (fun _ => ret (Fulfilled VNull)) s in
    (inr p, s).

(** The two calls of [setActiveUserLegacy] pass [client] first, and the
    function has one parameter. *)
Definition setActiveUser (user : Value) : Exc (State L C) (Promise Value) :=
  fun s =>
    let activeUser := getActiveUser s in
    (promise <-
       (if isDefined activeUser then
          (fun s => (inr tt, (setActiveUserLegacy (VObj client) s).2)) ;;;
          (fun s => (inr tt, set_activeUser VNull s)) ;;;
          id <- Cache.lift (Cache.get_prop "_id" activeUser) ;;
          p <- execute (user_request Cache.DELETE
                          (collection_pathname +:+ "/" +:+ template id)
                          VUndefined) ;;
          call_then p
        else ret (Fulfilled VNull)) ;;
     fun s =>
       let '(p, s) :=
         promise_then_exc promise (fun _ =>
           if negb (isDefined user) then ret (Fulfilled VNull)
           else
             (fun s => (inr tt, set_activeUser user s)) ;;;
             (fun s => (inr tt, (setActiveUserLegacy (VObj client) s).2)) ;;;
             p <- execute (user_request Cache.POST collection_pathname user) ;;
             call_then p) s in
       (inr (promise_then p (fun _ => user)), s)) s.

End ActiveUser.

(** The entries of a working storage after a call
    [setActiveUserLegacy(client, ...)]: the entry under [key] is removed
    and, the client object being defined, written again with it. *)
Definition client_entry (client : list (string * Value))
    (isDefined : Value -> bool) (key : string) (st : gmap string Value)
  : gmap string Value :=
  if isDefined (VObj client) then <[key := VObj client]> (delete key st)
  else delete key st.

(** A storage that works: a table of entries; reading a missing entry
    gives [null]. *)
Definition Working_storage : LocalStorage (gmap string Value) :=
  {| localStorage_get := fun key st => inr (default VNull (st !! key));
     localStorage_set := fun key v st => (inr tt, <[key := v]> st);
     localStorage_remove := fun key st => (inr tt, delete key st) |}.

(** A storage that is not available: every operation throws. *)
Definition Failing_storage (e : JsError) : LocalStorage (gmap string Value) :=
  {| localStorage_get := fun _ _ => inl e;
     localStorage_set := fun _ _ st => (inl e, st);
     localStorage_remove := fun _ st => (inl e, st) |}.

(** An environment to run the functions in: a client, [isDefined] as
    "neither [undefined] nor [null]", the conversion of strings, and a
    cache that answers every request with the same response. *)
Definition example_client : list (string * Value) :=
  [("appKey", VStr "kid_1"); ("protocol", VStr "https:");
   ("host", VStr "baas.kinvey.com")].

Definition not_nil (v : Value) : bool :=
  match v with VUndefined | VNull => false | _ => true end.

Definition string_template (v : Value) : string :=
  match v with VStr s => s | _ => "undefined" end.

Definition positive (v : Value) : bool :=
  match v with VNum n => (0 <? n)%Z | _ => false end.

Definition answering (p : Promise Value)
  : RequestOptions -> unit -> (JsError + Promise Value) * unit :=
  fun _ c => (inr p, c).

Definition example_state : State (gmap string Value) unit :=
  {| storage := ∅; activeUsers := ∅; cache := tt; executed := [] |}.

End LocalRequest.

(** ** The per-key operation serializer *)

Module PromiseQueueByKey.

(** Modelled from the spec: class [PromiseQueueByKey] ([../utils]) is
    instantiated by the repository provider but is not among the
    sources. The serializer keeps, per key, the tail of that key's chain;
    an operation submitted under a key is chained to the current tail
    and becomes the new tail; it starts only after the operation it is
    chained to has settled, whatever the outcome; a key not seen before
    has a settled tail. Operations are asynchronous tasks that interleave
    on one logical thread: starting and settling are separate steps of
    the scheduler. *)

Inductive Status :=
| Waiting
| Running
| Settled (ok : bool).

(** A submitted operation: its key, the operation it was chained to (by
    submission number), and whether it fulfils when it is run. *)
Record Task := {
  task_key : string;
  task_after : option nat;
  task_ok : bool
}.

Record Queue := {
  tasks : list Task;
  tails : gmap string nat;
  status : gmap nat Status
}.

Definition empty : Queue := {| tasks := []; tails := ∅; status := ∅ |}.

Definition status_of (q : Queue) (n : nat) : Status :=
  default Waiting (status q !! n).

Definition is_settled (q : Queue) (n : nat) : bool :=
  match status_of q n with Settled _ => true | _ => false end.

(** [run(key, operation)] *)
Definition run (key : string) (ok : bool) (q : Queue) : Queue :=
  {| tasks := tasks q ++ [ {| task_key := key;
                              task_after := tails q !! key;
                              task_ok := ok |} ];
     tails := <[key := length (tasks q)]> (tails q);
     status := status q |}.

Definition may_start (q : Queue) (n : nat) : bool :=
  match tasks q !! n with
  | Some t =>
      match status_of q n with
      | Waiting =>
          match task_after t with
          | None => true
          | Some p => is_settled q p
          end
      | _ => false
      end
  | None => false
  end.

Definition set_status (n : nat) (st : Status) (q : Queue) : Queue :=
  {| tasks := tasks q; tails := tails q; status := <[n := st]> (status q) |}.

Inductive Action :=
| Submit (key : string) (ok : bool)
| Start (n : nat)
| Finish (n : nat).

(** One step of the scheduler; [None] when the action is not enabled. *)
Definition exec (a : Action) (q : Queue) : option Queue :=
  match a with
  | Submit key ok => Some (run key ok q)
  | Start n => if may_start q n then Some (set_status n Running q) else None
  | Finish n =>
      match tasks q !! n, status_of q n with
      | Some t, Running => Some (set_status n (Settled (task_ok t)) q)
      | _, _ => None
      end
  end.

Fixpoint exec_all (actions : list Action) (q : Queue) : option Queue :=
  match actions with
  | [] => Some q
  | a :: rest =>
      match exec a q with
      | Some q' => exec_all rest q'
      | None => None
      end
  end.

Inductive reachable : Queue -> Prop :=
| reachable_empty : reachable empty
| reachable_step q a q' : reachable q -> exec a q = Some q' -> reachable q'.

(** *** Vocabulary of the properties *)

Definition key_of (q : Queue) (n : nat) : option string :=
  task_key <$> tasks q !! n.

(** The shape of the chains: the tail of a key is the last operation
    submitted under it, an operation is chained to the operation
    submitted last before it under its key, and an operation that has
    started is chained to a settled one. *)
Record chained (q : Queue) : Prop := {
  tails_last : forall k n,
    tails q !! k = Some n ->
    key_of q n = Some k /\ forall i, n < i -> key_of q i <> Some k;
  tails_none : forall k,
    tails q !! k = None -> forall i, key_of q i <> Some k;
  after_previous : forall j t p,
    tasks q !! j = Some t -> task_after t = Some p ->
    p < j /\ key_of q p = Some (task_key t)
    /\ forall i, p < i < j -> key_of q i <> Some (task_key t);
  after_nothing : forall j t,
    tasks q !! j = Some t -> task_after t = None ->
    forall i, i < j -> key_of q i <> Some (task_key t);
  started_after_settled : forall j t p,
    tasks q !! j = Some t -> status_of q j <> Waiting ->
    task_after t = Some p -> is_settled q p = true;
  status_in_range : forall n,
    is_Some (status q !! n) -> n < length (tasks q)
}.

End PromiseQueueByKey.

(** * Properties *)

(** ** The storage provider selector *)

Module RepositoryProviderFacts.
Import RepositoryProvider.

Section Selector.

Variable testSupportCollection : string.

Local Abbreviation try_next := (try_next testSupportCollection).
Local Abbreviation supported := (supported testSupportCollection).
Local Abbreviation _getRepoForStorageProvider :=
  (_getRepoForStorageProvider).
Local Abbreviation _chooseOfflineRepo := (_chooseOfflineRepo testSupportCollection).
Local Abbreviation _getFirstSupportedRepo :=
  (_getFirstSupportedRepo testSupportCollection).
Local Abbreviation run_handler := (run_handler testSupportCollection).
Local Abbreviation run_calls := (run_calls testSupportCollection).

(** What the prototype has is never a builder of repositories: the call
    throws, or what it returns has no [create]. *)
Lemma Object_prototype_not_builder name member :
  Object_prototype name = Some member ->
  (exists msg, member queue = inl (TypeError msg))
  \/ (exists kind, member queue = inr (not_a_repository kind)).
Proof.
  unfold Object_prototype.
  destruct (existsb _ _); [intros [= <-]; left; by eexists|].
  destruct (String.eqb name "__proto__"); [intros [= <-]; left; by eexists|].
  destruct (String.eqb name "toString"); [intros [= <-]; right; by eexists|].
  destruct (String.eqb name "constructor"); [intros [= <-]; right; by eexists|].
  done.
Qed.

Lemma get_property_own (object : gmap string Builder) name repoBuilder :
  object !! name = Some repoBuilder ->
  get_property object name = Some repoBuilder.
Proof. intros Hown. unfold get_property. by rewrite Hown. Qed.

Lemma get_property_None (object : gmap string Builder) name :
  get_property object name = None
  <-> object !! name = None /\ Object_prototype name = None.
Proof.
  unfold get_property. destruct (object !! name); [|tauto].
  split; [done|by intros [? _]].
Qed.

(** What one round of the chain does, by the state of the chain so far
    and the fate of the identifier. *)
Lemma try_next_fulfilled repo sp s :
  try_next (Fulfilled repo) sp s = (Fulfilled repo, s).
Proof. reflexivity. Qed.

Lemma try_next_unregistered e sp s :
  get_property (_availableStorages s) sp = None ->
  try_next (Rejected e) sp s = (Rejected (KinveyError (unavailable_msg sp)), s).
Proof.
  intros Hnone. cbv [RepositoryProvider.try_next promise_catch async bind].
  cbv [RepositoryProvider._getRepoForStorageProvider]. rewrite Hnone.
  reflexivity.
Qed.

Lemma try_next_reason_irrelevant e1 e2 sp s :
  try_next (Rejected e1) sp s = try_next (Rejected e2) sp s.
Proof. reflexivity. Qed.

Lemma try_next_frame result sp s :
  _availableStorages (try_next result sp s).2 = _availableStorages s
  /\ _chosenRepoPromise (try_next result sp s).2 = _chosenRepoPromise s
  /\ chains (try_next result sp s).2 = chains s.
Proof.
  destruct result as [repo|e]; [done|].
  cbv [RepositoryProvider.try_next promise_catch async bind].
  cbv [RepositoryProvider._getRepoForStorageProvider].
  destruct (get_property (_availableStorages s) sp) as [b|]; [|done].
  destruct (b queue) as [err|obj]; [done|].
  cbn. destruct (repo_create obj _ _) as [err|p]; done.
Qed.

(** One round with an inherited member of the prototype: the round
    fails with a type error. *)
Lemma try_next_inherited e sp s member :
  _availableStorages s !! sp = None ->
  Object_prototype sp = Some member ->
  exists msg, (try_next (Rejected e) sp s).1 = Rejected (TypeError msg).
Proof.
  intros Hown Hmember.
  cbv [RepositoryProvider.try_next promise_catch async bind].
  cbv [RepositoryProvider._getRepoForStorageProvider].
  unfold get_property. rewrite Hown, Hmember.
  destruct (Object_prototype_not_builder sp member Hmember)
    as [[msg ->]|[kind ->]]; cbn; by eexists.
Qed.

Lemma try_next_unsupported e sp s :
  supported (_availableStorages s) sp = false ->
  exists e', (try_next (Rejected e) sp s).1 = Rejected e'.
Proof.
  cbv [RepositoryProvider.supported]. intros Hsp.
  destruct (_availableStorages s !! sp) as [b|] eqn:Hown.
  - cbv [RepositoryProvider.try_next promise_catch async bind].
    cbv [RepositoryProvider._getRepoForStorageProvider].
    rewrite (get_property_own _ _ _ Hown).
    destruct (b queue) as [err|obj]; [by eauto|].
    cbn. destruct (repo_create obj _ _) as [err|[v|err]]; cbn; by eauto.
  - destruct (Object_prototype sp) as [member|] eqn:Hmember.
    + destruct (try_next_inherited e sp s member Hown Hmember) as [msg ->].
      by eexists.
    + rewrite try_next_unregistered; [by eexists|].
      by apply get_property_None.
Qed.

Lemma try_next_chosen e sp s repo :
  (try_next (Rejected e) sp s).1 = Fulfilled repo ->
  supported (_availableStorages s) sp = true
  /\ exists repoBuilder,
       _availableStorages s !! sp = Some repoBuilder
       /\ repoBuilder queue = inr (repo_obj repo)
       /\ EvProbe (repo_addr repo) testSupportCollection probe_entity
            ∈ trace (try_next (Rejected e) sp s).2.
Proof.
  cbv [RepositoryProvider.supported].
  destruct (_availableStorages s !! sp) as [b|] eqn:Hown.
  - cbv [RepositoryProvider.try_next promise_catch async bind].
    cbv [RepositoryProvider._getRepoForStorageProvider].
    rewrite (get_property_own _ _ _ Hown).
    destruct (b queue) as [err|obj] eqn:Hb; [done|].
    cbn. destruct (repo_create obj _ _) as [err|[v|err]]; cbn; try done.
    intros [= <-]. cbn. split; [done|]. exists b. split_and!; try done.
    set_solver.
  - intros Hrepo. exfalso.
    destruct (Object_prototype sp) as [member|] eqn:Hmember.
    + destruct (try_next_inherited e sp s member Hown Hmember) as [msg Hmsg].
      congruence.
    + rewrite try_next_unregistered in Hrepo; [done|].
      by apply get_property_None.
Qed.

Lemma reduce_app {A B S} (f : B -> A -> S -> B * S) l1 l2 acc s :
  reduce f (l1 ++ l2) acc s =
  let '(acc', s') := reduce f l1 acc s in reduce f l2 acc' s'.
Proof.
  revert acc s. induction l1 as [|x l1 IH]; intros acc s; cbn [reduce app].
  - by destruct (reduce f l2 acc s).
  - destruct (f acc x s) as [acc' s']. apply IH.
Qed.

Lemma reduce_fulfilled l repo s :
  reduce try_next l (Fulfilled repo) s = (Fulfilled repo, s).
Proof. induction l as [|sp l IH]; cbn [reduce]; [done|apply IH]. Qed.

Lemma reduce_frame l acc s :
  _availableStorages (reduce try_next l acc s).2 = _availableStorages s
  /\ _chosenRepoPromise (reduce try_next l acc s).2 = _chosenRepoPromise s.
Proof.
  revert acc s. induction l as [|sp l IH]; intros acc s; cbn [reduce]; [done|].
  destruct (try_next acc sp s) as [acc' s'] eqn:Hstep.
  destruct (try_next_frame acc sp s) as (Ha & Hc & _). rewrite Hstep in Ha, Hc.
  destruct (IH acc' s') as [Ha' Hc']. cbn in *. split; congruence.
Qed.

Lemma trace_grows_try_next result sp s ev :
  ev ∈ trace s -> ev ∈ trace (try_next result sp s).2.
Proof.
  intros Hin. destruct result as [repo|e]; [done|].
  cbv [RepositoryProvider.try_next promise_catch async bind].
  cbv [RepositoryProvider._getRepoForStorageProvider].
  destruct (get_property (_availableStorages s) sp) as [b|]; [|done].
  destruct (b queue) as [err|obj]; [done|].
  cbn. destruct (repo_create obj _ _) as [err|p]; cbn; set_solver.
Qed.

Lemma trace_grows_reduce l acc s ev :
  ev ∈ trace s -> ev ∈ trace (reduce try_next l acc s).2.
Proof.
  revert acc s. induction l as [|sp l IH]; intros acc s Hin; cbn [reduce]; [done|].
  destruct (try_next acc sp s) as [acc' s'] eqn:Hstep.
  apply IH. pose proof (trace_grows_try_next acc sp s ev Hin) as H.
  by rewrite Hstep in H.
Qed.

Lemma reduce_all_unsupported l e s :
  Forall (fun sp => supported (_availableStorages s) sp = false) l ->
  exists e', (reduce try_next l (Rejected e) s).1 = Rejected e'.
Proof.
  revert e s. induction l as [|sp l IH]; intros e s Hall; cbn [reduce]; [by eauto|].
  destruct (try_next (Rejected e) sp s) as [acc' s'] eqn:Hstep.
  inversion Hall as [|? ? Hsp Hl]; subst.
  destruct (try_next_unsupported e sp s Hsp) as [e' He'].
  rewrite Hstep in He'. cbn in He'. subst acc'.
  apply IH. destruct (try_next_frame (Rejected e) sp s) as [Ha _].
  rewrite Hstep in Ha. cbn in Ha. by rewrite Ha.
Qed.

Lemma reduce_chosen l e s repo :
  (reduce try_next l (Rejected e) s).1 = Fulfilled repo ->
  exists sp repoBuilder,
    sp ∈ l
    /\ supported (_availableStorages s) sp = true
    /\ _availableStorages s !! sp = Some repoBuilder
    /\ repoBuilder queue = inr (repo_obj repo)
    /\ EvProbe (repo_addr repo) testSupportCollection probe_entity
         ∈ trace (reduce try_next l (Rejected e) s).2.
Proof.
  revert e s. induction l as [|sp l IH]; intros e s; cbn [reduce]; [done|].
  destruct (try_next (Rejected e) sp s) as [acc' s'] eqn:Hstep.
  destruct (try_next_frame (Rejected e) sp s) as [Ha _].
  rewrite Hstep in Ha. cbn in Ha.
  destruct acc' as [repo'|e'].
  - rewrite reduce_fulfilled. cbn. intros [= ->].
    destruct (try_next_chosen e sp s repo) as (Hs & b & Hb & Hq & Hev).
    { by rewrite Hstep. }
    exists sp, b. split_and!; try done; [set_solver|].
    by rewrite Hstep in Hev.
  - intros Hrepo. destruct (IH e' s' Hrepo) as (sp' & b & Hin & Hs & Hb & Hq & Hev).
    exists sp', b. rewrite <- Ha. split_and!; try done. set_solver.
Qed.

(** *** The chain while it runs *)

(** One round builds at most one repository, for its identifier, and
    leaves the table of promises alone. *)
Lemma try_next_built result sp s :
  built (trace (try_next result sp s).2) = built (trace s)
  \/ built (trace (try_next result sp s).2) = built (trace s) ++ [sp].
Proof.
  destruct result as [repo|e]; [by left|].
  cbv [RepositoryProvider.try_next promise_catch async bind].
  cbv [RepositoryProvider._getRepoForStorageProvider].
  destruct (get_property (_availableStorages s) sp) as [b|]; [|by left].
  destruct (b queue) as [err|obj]; [by left|].
  right. cbn. unfold built.
  destruct (repo_create obj _ _) as [err|p]; cbn;
    rewrite !omap_app; cbn; by rewrite app_nil_r.
Qed.

Lemma fresh_initial_state : fresh initial_state.
Proof. done. Qed.

Lemma getOfflineRepository_fresh client s :
  fresh s ->
  (getOfflineRepository client s).1 = 0
  /\ started (ensureArray (_getRepoType client)) (getOfflineRepository client s).2.
Proof.
  intros (Hnone & Hchains & Htrace).
  unfold getOfflineRepository, _chooseOfflineRepo_call. rewrite Hnone, Hchains.
  cbn. split; [done|]. split; [done|]. eexists. split; [reflexivity|].
  exists []. split; [done|]. by rewrite Htrace.
Qed.

Lemma getOfflineRepository_started client L s :
  started L s -> getOfflineRepository client s = (0, s).
Proof. intros [Hsome _]. unfold getOfflineRepository. by rewrite Hsome. Qed.

Lemma setSupportedRepoBuilders_fresh repos s :
  fresh s -> fresh (setSupportedRepoBuilders repos s).
Proof. done. Qed.

Lemma setSupportedRepoBuilders_started repos L s :
  started L s -> started L (setSupportedRepoBuilders repos s).
Proof. done. Qed.

Lemma run_handler_fresh p s : fresh s -> run_handler p s = s.
Proof.
  intros (_ & Hchains & _). unfold RepositoryProvider.run_handler.
  by rewrite Hchains.
Qed.

Lemma run_handler_started p L s :
  started L s -> started L (run_handler p s).
Proof.
  intros (Hsome & chain & Hchains & Hchain).
  unfold RepositoryProvider.run_handler. rewrite Hchains.
  destruct p as [|p]; [|by split; [|exists chain]].
  cbn [lookup list_lookup].
  destruct chain as [result [|sp handlers]|outcome];
    [| |by split; [|exists (Settled outcome)]].
  - destruct Hchain as (done & -> & Hbuilt).
    destruct result as [repo|e]; cbn [promise_catch async ret];
      (split; [done|]); rewrite Hchains; cbn;
      (eexists; split; [reflexivity|]); cbn;
      by rewrite app_nil_r.
  - destruct Hchain as (done & -> & Hbuilt).
    destruct (try_next_frame result sp s) as (_ & Hc & Hl).
    pose proof (try_next_built result sp s) as Hb.
    destruct (try_next result sp s) as [result' s']. cbn [fst snd] in *.
    split; [by rewrite <- Hsome|]. cbn [set_chains chains trace].
    rewrite Hl, Hchains. cbn. eexists. split; [reflexivity|].
    exists (done ++ [sp]). split; [by rewrite <- app_assoc|].
    destruct Hb as [-> | ->].
    + by apply sublist_inserts_r.
    + by apply sublist_app.
Qed.

(** Once the promise has settled, only the builders can change. *)
Lemma run_handler_settled p q L s outcome :
  started L s -> outcome_of q s = Some outcome -> run_handler p s = s.
Proof.
  intros (_ & chain & Hchains & _). unfold outcome_of.
  unfold RepositoryProvider.run_handler. rewrite Hchains.
  destruct q as [|q]; [|done]. cbn [lookup list_lookup].
  destruct chain as [result handlers|o]; [done|]. intros _.
  by destruct p.
Qed.

Lemma run_calls_started calls L s :
  started L s ->
  Forall (eq 0) (run_calls calls s).1 /\ started L (run_calls calls s).2.
Proof.
  revert s. induction calls as [|[client|repos|p] calls IH]; intros s Hs.
  - by split.
  - cbn [RepositoryProvider.run_calls].
    rewrite (getOfflineRepository_started client L s Hs).
    destruct (IH s Hs) as [Hps Hs']. destruct (run_calls calls s) as [ps s'].
    split; [by constructor|done].
  - cbn [RepositoryProvider.run_calls].
    by apply IH, setSupportedRepoBuilders_started.
  - cbn [RepositoryProvider.run_calls]. by apply IH, run_handler_started.
Qed.

Lemma run_calls_settled calls q L s outcome :
  started L s ->
  outcome_of q s = Some outcome ->
  outcome_of q (run_calls calls s).2 = Some outcome
  /\ chains (run_calls calls s).2 = chains s
  /\ trace (run_calls calls s).2 = trace s
  /\ allocated (run_calls calls s).2 = allocated s.
Proof.
  revert s. induction calls as [|[client|repos|p] calls IH]; intros s Hs Hq.
  - done.
  - cbn [RepositoryProvider.run_calls].
    rewrite (getOfflineRepository_started client L s Hs).
    destruct (IH s Hs Hq) as (? & ? & ? & ?).
    by destruct (run_calls calls s) as [ps s'].
  - cbn [RepositoryProvider.run_calls].
    by apply (IH (setSupportedRepoBuilders repos s)).
  - cbn [RepositoryProvider.run_calls].
    rewrite (run_handler_settled p q L s outcome Hs Hq). by apply IH.
Qed.

(** Every state that the module reaches. *)
Lemma run_calls_fresh calls s :
  fresh s ->
  (fresh (run_calls calls s).2 /\ (run_calls calls s).1 = [])
  \/ exists pre client post,
       calls = pre ++ Call_getOfflineRepository client :: post
       /\ Forall (fun c => match c with
                           | Call_getOfflineRepository _ => False
                           | _ => True
                           end) pre
       /\ Forall (eq 0) (run_calls calls s).1
       /\ started (ensureArray (_getRepoType client)) (run_calls calls s).2.
Proof.
  revert s. induction calls as [|[client|repos|p] calls IH]; intros s Hs.
  - by left.
  - right. exists [], client, calls. split; [done|]. split; [done|].
    cbn [RepositoryProvider.run_calls].
    destruct (getOfflineRepository_fresh client s Hs) as [Hp Hstarted].
    destruct (getOfflineRepository client s) as [p s1]. cbn [fst snd] in *.
    destruct (run_calls_started calls _ s1 Hstarted) as [Hps Hs'].
    destruct (run_calls calls s1) as [ps s']. split; [by constructor|done].
  - cbn [RepositoryProvider.run_calls].
    destruct (IH _ (setSupportedRepoBuilders_fresh repos s Hs))
      as [Hfresh|(pre & client & post & -> & Hpre & Hps & Hstarted)];
      [by left|].
    right. exists (Call_setSupportedRepoBuilders repos :: pre), client, post.
    split; [done|]. split; [by constructor|done].
  - cbn [RepositoryProvider.run_calls]. rewrite (run_handler_fresh p s Hs).
    destruct (IH s Hs)
      as [Hfresh|(pre & client & post & -> & Hpre & Hps & Hstarted)];
      [by left|].
    right. exists (Run_handler p :: pre), client, post.
    split; [done|]. split; [by constructor|done].
Qed.

Lemma first_call_unique pre pre' client client' post post' :
  Forall (fun c => match c with
                   | Call_getOfflineRepository _ => False
                   | _ => True
                   end) pre ->
  Forall (fun c => match c with
                   | Call_getOfflineRepository _ => False
                   | _ => True
                   end) pre' ->
  pre ++ Call_getOfflineRepository client :: post
  = pre' ++ Call_getOfflineRepository client' :: post' ->
  client = client'.
Proof.
  revert pre'. induction pre as [|c pre IH]; intros [|c' pre'] Hpre Hpre' Heq.
  - by injection Heq.
  - injection Heq as <- _. by inversion Hpre'.
  - injection Heq as -> _. by inversion Hpre.
  - injection Heq as _ Heq. inversion Hpre; inversion Hpre'; subst.
    by eapply IH.
Qed.

(** C1 (amended). An identifier that the mapping does not have, neither
    as an own property nor as a member of its prototype, makes the
    lookup throw an error that names it, before anything is built or
    probed; the chain treats that error like a failed probe and goes on
    with the next identifier, so that resolution behaves as if the
    identifier were not in the list. An identifier that is a member of
    the prototype (such as [toString]) is found by the lookup: no error
    names it, and its round fails with a type error. In neither case is
    the error that names the identifier the outcome of resolution. *)
Theorem unregistered_identifier_is_skipped sp pre post s :
  _availableStorages s !! sp = None ->
  (Object_prototype sp = None ->
   RepositoryProvider._getRepoForStorageProvider sp s
   = (inl (KinveyError (unavailable_msg sp)), s)
   /\ _chooseOfflineRepo {| storage := ManyStorages (pre ++ sp :: post) |} s
      = _chooseOfflineRepo {| storage := ManyStorages (pre ++ post) |} s)
  /\ (forall member e,
        Object_prototype sp = Some member ->
        (RepositoryProvider._getRepoForStorageProvider sp s).1
        <> inl (KinveyError (unavailable_msg sp))
        /\ exists msg, (try_next (Rejected e) sp s).1 = Rejected (TypeError msg))
  /\ (_chooseOfflineRepo {| storage := ManyStorages (pre ++ sp :: post) |} s).1
     <> Rejected (KinveyError (unavailable_msg sp)).
Proof.
  intros Hown. split_and!.
  - intros Hproto.
    assert (Hnone : get_property (_availableStorages s) sp = None)
      by by apply get_property_None.
    split.
    { unfold RepositoryProvider._getRepoForStorageProvider. by rewrite Hnone. }
    unfold RepositoryProvider._chooseOfflineRepo, _getRepoType, ensureArray,
      RepositoryProvider._getFirstSupportedRepo.
    cbn [storage]. rewrite !reduce_app.
    destruct (reduce_frame pre (Rejected NoReason) s) as [Ha _].
    destruct (reduce try_next pre (Rejected NoReason) s) as [acc s1].
    cbn [snd] in Ha. cbn [reduce]. destruct acc as [repo|e].
    + by rewrite try_next_fulfilled.
    + rewrite try_next_unregistered by (by rewrite Ha).
      destruct post as [|sp' post]; [done|].
      cbn [reduce].
      by rewrite (try_next_reason_irrelevant _ e).
  - intros member e Hmember. split.
    + unfold RepositoryProvider._getRepoForStorageProvider, get_property.
      rewrite Hown, Hmember.
      destruct (Object_prototype_not_builder sp member Hmember)
        as [[msg ->]|[kind ->]]; cbn; discriminate.
    + by apply (try_next_inherited e sp s member).
  - unfold RepositoryProvider._chooseOfflineRepo.
    destruct (RepositoryProvider._getFirstSupportedRepo _ _ s) as [[repo|e] s1];
      cbn [promise_catch async ret fst]; [done|].
    discriminate.
Qed.

(** C3. When no identifier of the priority list passes its probe,
    resolution rejects with the error that says that none of the selected
    storage providers is supported; this is the only rejection that
    resolution produces, and an engine it resolves to was built by the
    builder registered for an identifier of the list whose probe
    succeeded. *)
Theorem exhausted_list_is_environment_error client s :
  let storagePrecedence := ensureArray (_getRepoType client) in
  let outcome := (_chooseOfflineRepo client s).1 in
  (Forall (fun sp => supported (_availableStorages s) sp = false)
     storagePrecedence ->
   outcome = Rejected (KinveyError none_supported_msg))
  /\ (forall e, outcome = Rejected e -> e = KinveyError none_supported_msg)
  /\ (forall repo, outcome = Fulfilled repo ->
        exists sp repoBuilder,
          sp ∈ storagePrecedence
          /\ supported (_availableStorages s) sp = true
          /\ _availableStorages s !! sp = Some repoBuilder
          /\ repoBuilder queue = inr (repo_obj repo)).
Proof.
  cbv zeta. unfold RepositoryProvider._chooseOfflineRepo,
    RepositoryProvider._getFirstSupportedRepo.
  split_and!.
  - intros Hall.
    destruct (reduce_all_unsupported _ NoReason s Hall) as [e He].
    destruct (reduce try_next _ _ s) as [p s1]. cbn in He. by subst p.
  - intros e.
    destruct (reduce try_next _ _ s) as [[repo|e0] s1]; cbn; [done|].
    by intros [= <-].
  - intros repo.
    pose proof (reduce_chosen (ensureArray (_getRepoType client)) NoReason s repo)
      as Hchosen.
    destruct (reduce try_next _ _ s) as [[repo0|e0] s1]; cbn in *; [|done].
    intros Heq. destruct (Hchosen Heq) as (sp & b & ? & ? & ? & ? & _).
    by exists sp, b.
Qed.

(** C4. Whatever the host does with the module, in whatever order the
    handlers of the chain run in between: every call of
    [getOfflineRepository] returns one and the same promise, which is
    the one the module has stored; [_chooseOfflineRepo] is called at
    most once, so there is at most one chain; the repositories built are
    for identifiers of the list that the first call read, each position
    of that list at most once; and once the promise has settled, its
    outcome stays, and nothing is built or probed any more, whatever
    builders are registered and whatever calls follow. *)
Theorem resolution_is_memoized calls :
  let run := run_calls calls initial_state in
  (forall p, p ∈ run.1 ->
     _chosenRepoPromise run.2 = Some p /\ Forall (eq p) run.1)
  /\ length (chains run.2) <= 1
  /\ (forall pre client post,
        calls = pre ++ Call_getOfflineRepository client :: post ->
        Forall (fun c => match c with
                         | Call_getOfflineRepository _ => False
                         | _ => True
                         end) pre ->
        built (trace run.2) `sublist_of` ensureArray (_getRepoType client))
  /\ (forall p outcome more,
        outcome_of p run.2 = Some outcome ->
        let later := run_calls more run.2 in
        Forall (eq p) later.1
        /\ _chosenRepoPromise later.2 = Some p
        /\ outcome_of p later.2 = Some outcome
        /\ trace later.2 = trace run.2
        /\ allocated later.2 = allocated run.2).
Proof.
  cbv zeta.
  destruct (run_calls_fresh calls initial_state fresh_initial_state)
    as [[(Hnone & Hchains & Htrace) Hps]
       |(pre & client & post & Hcalls & Hpre & Hps & Hstarted)].
  - split_and!.
    + intros p. rewrite Hps. by intros ?%elem_of_nil.
    + rewrite Hchains. cbn. lia.
    + intros. rewrite Htrace. apply sublist_nil_l.
    + intros p outcome more. unfold outcome_of. by rewrite Hchains.
  - pose proof Hstarted as (Hsome & chain & Hchains & Hchain).
    split_and!.
    + intros p Hp. rewrite Forall_forall in Hps.
      rewrite <- (Hps p Hp). split; [done|]. by apply Forall_forall.
    + rewrite Hchains. cbn. lia.
    + intros pre' client' post' Hcalls' Hpre'.
      rewrite Hcalls in Hcalls'.
      rewrite <- (first_call_unique _ _ _ _ _ _ Hpre Hpre' Hcalls').
      destruct chain as [result handlers|outcome]; [|done].
      destruct Hchain as (done & -> & Hbuilt). by apply sublist_inserts_r.
    + intros p outcome more Hp.
      assert (p = 0) as ->.
      { unfold outcome_of in Hp. rewrite Hchains in Hp. by destruct p. }
      destruct (run_calls_started more _ _ Hstarted) as [Hlater (Hsome' & _)].
      destruct (run_calls_settled more 0 _ _ outcome Hstarted Hp)
        as (Ho & _ & Ht & Ha).
      by split_and!.
Qed.

(** When the builders are not replaced while the chain runs, the promise
    settles to what the chain, run in one go, gives: the handlers of the
    identifiers, then the final handler. *)
Lemma try_next_leaves_chains result sp s chosen l :
  try_next result sp
    {| _chosenRepoPromise := chosen; _availableStorages := _availableStorages s;
       allocated := allocated s; trace := trace s; chains := l |}
  = ((try_next result sp s).1,
     {| _chosenRepoPromise := chosen;
        _availableStorages := _availableStorages (try_next result sp s).2;
        allocated := allocated (try_next result sp s).2;
        trace := trace (try_next result sp s).2;
        chains := l |}).
Proof.
  destruct result as [repo|e]; [done|].
  cbv [RepositoryProvider.try_next promise_catch async bind].
  cbv [RepositoryProvider._getRepoForStorageProvider].
  cbn [_availableStorages].
  destruct (get_property (_availableStorages s) sp) as [b|]; [|done].
  destruct (b queue) as [err|obj]; [done|].
  cbn. by destruct (repo_create obj _ _) as [err|p].
Qed.

Lemma run_handler_round result sp handlers s chosen :
  run_handler 0
    {| _chosenRepoPromise := chosen; _availableStorages := _availableStorages s;
       allocated := allocated s; trace := trace s;
       chains := [Pending result (sp :: handlers)] |}
  = {| _chosenRepoPromise := chosen;
       _availableStorages := _availableStorages (try_next result sp s).2;
       allocated := allocated (try_next result sp s).2;
       trace := trace (try_next result sp s).2;
       chains := [Pending (try_next result sp s).1 handlers] |}.
Proof.
  unfold RepositoryProvider.run_handler. cbn [chains lookup list_lookup].
  rewrite try_next_leaves_chains. reflexivity.
Qed.

Lemma handlers_run_in_one_go handlers result s chosen :
  let s0 := {| _chosenRepoPromise := chosen;
               _availableStorages := _availableStorages s;
               allocated := allocated s; trace := trace s;
               chains := [Pending result handlers] |} in
  let settled :=
    let '(p, s') := reduce try_next handlers result s in
    promise_catch p (fun _ =>
      ret (Rejected (KinveyError none_supported_msg))) s' in
  let s1 := Nat.iter (S (length handlers)) (run_handler 0) s0 in
  outcome_of 0 s1 = Some settled.1
  /\ trace s1 = trace settled.2
  /\ allocated s1 = allocated settled.2
  /\ _availableStorages s1 = _availableStorages settled.2.
Proof.
  cbv zeta. revert result s.
  induction handlers as [|sp handlers IH]; intros result s.
  - cbn [length Nat.iter reduce]. unfold RepositoryProvider.run_handler.
    cbn [chains lookup list_lookup].
    by destruct result as [repo|e].
  - cbn [length reduce]. rewrite Nat.iter_succ_r, run_handler_round.
    destruct (try_next result sp s) as [result' s']. cbn [fst snd].
    apply IH.
Qed.

(** The promise of the first call settles to the resolution of
    [_chooseOfflineRepo] in the state of the call, when the handlers run
    without the builders being replaced in between. *)
Lemma undisturbed_chain_settles_as_resolved client s :
  _chosenRepoPromise s = None ->
  chains s = [] ->
  let handlers := ensureArray (_getRepoType client) in
  let s1 := Nat.iter (S (length handlers)) (run_handler 0)
              (getOfflineRepository client s).2 in
  (getOfflineRepository client s).1 = 0
  /\ outcome_of 0 s1 = Some (_chooseOfflineRepo client s).1
  /\ trace s1 = trace (_chooseOfflineRepo client s).2
  /\ allocated s1 = allocated (_chooseOfflineRepo client s).2.
Proof.
  intros Hnone Hchains. cbv zeta.
  unfold getOfflineRepository, _chooseOfflineRepo_call. rewrite Hnone, Hchains.
  cbn [fst snd length app set_chains _availableStorages allocated trace chains].
  split; [done|].
  destruct (handlers_run_in_one_go (ensureArray (_getRepoType client))
              (Rejected NoReason) s (Some 0)) as (Ho & Ht & Ha & _).
  unfold RepositoryProvider._chooseOfflineRepo,
    RepositoryProvider._getFirstSupportedRepo.
  by split_and!.
Qed.

End Selector.

(** C1, as stated, fails on the scenario of the design document: the
    first identifier of the list has no builder, the second one is the
    in-memory repository. Resolution does not reject with the error that
    names the first identifier: it builds and probes the second one and
    fulfils with it. *)
Lemma unregistered_identifier_counterexample :
  let available : gmap string Builder := {[ "InMemory" := inmemoryRepoBuilder ]} in
  let s := setSupportedRepoBuilders available initial_state in
  let client := {| storage := ManyStorages ["BrowserLocal"; "InMemory"] |} in
  let run :=
    run_calls "kinvey_test_support"
      [Call_getOfflineRepository client;
       Run_handler 0; Run_handler 0; Run_handler 0] s in
  available !! "BrowserLocal" = None
  /\ Object_prototype "BrowserLocal" = None
  /\ run.1 = [0]
  /\ outcome_of 0 run.2
     <> Some (Rejected (KinveyError (unavailable_msg "BrowserLocal")))
  /\ (exists obj, inmemoryRepoBuilder queue = inr obj
       /\ outcome_of 0 run.2
          = Some (Fulfilled {| repo_addr := 0; repo_obj := obj |})
       /\ (_chooseOfflineRepo "kinvey_test_support" client s).1
          = Fulfilled {| repo_addr := 0; repo_obj := obj |})
  /\ trace run.2
     = [EvBuild "InMemory" 0;
        EvProbe 0 "kinvey_test_support" probe_entity].
Proof.
  cbv zeta. split_and!.
  - reflexivity.
  - reflexivity.
  - reflexivity.
  - vm_compute. discriminate.
  - eexists. split; [reflexivity|]. split; reflexivity.
  - reflexivity.
Qed.

(** The second scenario of the design document: the first identifier is
    registered but its probe fails, and resolution settles on the second
    one. *)
Example failed_probe_falls_through :
  let available : gmap string Builder :=
    <[ "Unsupported" := failingRepoBuilder ]>
      {[ "InMemory" := inmemoryRepoBuilder ]} in
  let s := setSupportedRepoBuilders available initial_state in
  let client := {| storage := ManyStorages ["Unsupported"; "InMemory"] |} in
  let resolution := _chooseOfflineRepo "kinvey_test_support" client s in
  (exists obj, inmemoryRepoBuilder queue = inr obj
     /\ resolution.1 = Fulfilled {| repo_addr := 1; repo_obj := obj |})
  /\ trace resolution.2
     = [EvBuild "Unsupported" 0;
        EvProbe 0 "kinvey_test_support" probe_entity;
        EvBuild "InMemory" 1;
        EvProbe 1 "kinvey_test_support" probe_entity].
Proof. cbv zeta. split; [eexists; split; reflexivity|reflexivity]. Qed.

(** A name that the mapping inherits from its prototype: the lookup
    finds it, nothing names it in an error, its round fails, and
    resolution goes on to the in-memory repository. *)
Example inherited_name_is_found :
  let client := {| storage := ManyStorages ["toString"; "Memory"] |} in
  let resolution := _chooseOfflineRepo "kinvey_test_support" client initial_state in
  _availableStorages initial_state !! "toString" = None
  /\ (exists repo s',
        _getRepoForStorageProvider "toString" initial_state = (inr repo, s')
        /\ repo_kind (repo_obj repo) = "[object Undefined]")
  /\ (exists obj, inmemoryRepoBuilder queue = inr obj
        /\ resolution.1 = Fulfilled {| repo_addr := 1; repo_obj := obj |}).
Proof.
  cbv zeta. split; [reflexivity|].
  split; [eexists _, _; split; reflexivity|].
  eexists. split; reflexivity.
Qed.

(** The builders are read when the handlers run, not when
    [getOfflineRepository] is called: a replacement made before the
    chain has run decides the outcome, one made after it has settled
    does not. Both calls return the same promise. *)
Example builders_are_read_when_handlers_run :
  let client := {| storage := OneStorage "Memory" |} in
  let memory : gmap string Builder :=
    {[ StorageProvider_Memory := inmemoryRepoBuilder ]} in
  let s := setSupportedRepoBuilders ∅ initial_state in
  let run :=
    run_calls "kinvey_test_support"
      [Call_getOfflineRepository client;
       Call_setSupportedRepoBuilders memory;
       Call_getOfflineRepository client;
       Run_handler 0; Run_handler 0;
       Call_setSupportedRepoBuilders ∅;
       Call_getOfflineRepository client] s in
  run.1 = [0; 0; 0]
  /\ (_chooseOfflineRepo "kinvey_test_support" client s).1
     = Rejected (KinveyError none_supported_msg)
  /\ exists obj, inmemoryRepoBuilder queue = inr obj
       /\ outcome_of 0 run.2
          = Some (Fulfilled {| repo_addr := 0; repo_obj := obj |}).
Proof.
  cbv zeta. split; [reflexivity|]. split; [reflexivity|].
  eexists. split; reflexivity.
Qed.

Lemma unregistered_identifier_is_skipped_witness :
  let available : gmap string Builder := {[ "InMemory" := inmemoryRepoBuilder ]} in
  let s := setSupportedRepoBuilders available initial_state in
  _availableStorages s !! "BrowserLocal" = None
  /\ Object_prototype "BrowserLocal" = None
  /\ _chooseOfflineRepo "kinvey_test_support"
       {| storage := ManyStorages ([] ++ "BrowserLocal" :: ["InMemory"]) |} s
     = _chooseOfflineRepo "kinvey_test_support"
         {| storage := ManyStorages ([] ++ ["InMemory"]) |} s.
Proof.
  cbv zeta. split; [reflexivity|]. split; [reflexivity|].
  exact (proj2 (proj1 (unregistered_identifier_is_skipped
                         "kinvey_test_support" "BrowserLocal" []
                         ["InMemory"]
                         (setSupportedRepoBuilders
                            {[ "InMemory" := inmemoryRepoBuilder ]}
                            initial_state)
                         eq_refl) eq_refl)).
Defined.

Lemma exhausted_list_is_environment_error_witness :
  let available : gmap string Builder := {[ "Unsupported" := failingRepoBuilder ]} in
  let s := setSupportedRepoBuilders available initial_state in
  let client := {| storage := ManyStorages ["Unsupported"; "WebSQL"] |} in
  Forall (fun sp => supported "kinvey_test_support" (_availableStorages s) sp = false)
    (ensureArray (_getRepoType client))
  /\ (_chooseOfflineRepo "kinvey_test_support" client s).1
     = Rejected (KinveyError none_supported_msg).
Proof.
  cbv zeta.
  assert (Hall : Forall (fun sp => supported "kinvey_test_support"
                   (_availableStorages
                      (setSupportedRepoBuilders
                         {[ "Unsupported" := failingRepoBuilder ]} initial_state))
                   sp = false)
                   ["Unsupported"; "WebSQL"]).
  { repeat constructor. }
  split; [exact Hall|].
  apply (exhausted_list_is_environment_error "kinvey_test_support"
           {| storage := ManyStorages ["Unsupported"; "WebSQL"] |}).
  exact Hall.
Defined.

Lemma resolution_is_memoized_witness :
  let client := {| storage := OneStorage "Memory" |} in
  let calls :=
    [Call_getOfflineRepository client;
     Call_setSupportedRepoBuilders ∅;
     Call_getOfflineRepository client;
     Run_handler 0; Run_handler 0] in
  let more :=
    [Call_setSupportedRepoBuilders
       {[ StorageProvider_Memory := inmemoryRepoBuilder ]};
     Call_getOfflineRepository {| storage := OneStorage "WebSQL" |};
     Run_handler 0] in
  let run := run_calls "kinvey_test_support" calls initial_state in
  let later := run_calls "kinvey_test_support" more run.2 in
  0 ∈ run.1
  /\ outcome_of 0 run.2 = Some (Rejected (KinveyError none_supported_msg))
  /\ Forall (eq 0) run.1
  /\ Forall (eq 0) later.1
  /\ outcome_of 0 later.2 = Some (Rejected (KinveyError none_supported_msg))
  /\ trace later.2 = trace run.2.
Proof.
  cbv zeta.
  assert (Hin : 0 ∈ [0; 0]) by (left).
  assert (Hout : outcome_of 0
                   (run_calls "kinvey_test_support"
                      [Call_getOfflineRepository {| storage := OneStorage "Memory" |};
                       Call_setSupportedRepoBuilders ∅;
                       Call_getOfflineRepository {| storage := OneStorage "Memory" |};
                       Run_handler 0; Run_handler 0] initial_state).2
                 = Some (Rejected (KinveyError none_supported_msg)))
    by reflexivity.
  split; [exact Hin|]. split; [exact Hout|].
  pose proof (resolution_is_memoized "kinvey_test_support"
                [Call_getOfflineRepository {| storage := OneStorage "Memory" |};
                 Call_setSupportedRepoBuilders ∅;
                 Call_getOfflineRepository {| storage := OneStorage "Memory" |};
                 Run_handler 0; Run_handler 0])
    as (Hsame & _ & _ & Hsettled).
  split; [exact (proj2 (Hsame 0 Hin))|].
  destruct (Hsettled 0 _
              [Call_setSupportedRepoBuilders
                 {[ StorageProvider_Memory := inmemoryRepoBuilder ]};
               Call_getOfflineRepository {| storage := OneStorage "WebSQL" |};
               Run_handler 0] Hout)
    as (Hlater & _ & Ho & Ht & _).
  split; [exact Hlater|]. split; [exact Ho|exact Ht].
Defined.

End RepositoryProviderFacts.

(** ** The local cache engine *)

Module CacheFacts.
Import Cache.

Section Engine.

Context {St : Type}.
Variable isSupported : DBAdapter -> bool.
Variable new_adapter : DBAdapter -> Value -> Adapter St.
Variable Math_random : nat -> nat.
Variable Aggregation_process : Value -> list Value -> JsError + Value.
Variable super_handle : Request -> Promise Request.

Local Abbreviation save := (save Math_random).
Local Abbreviation handle :=
  (handle isSupported new_adapter Math_random Aggregation_process super_handle).

Ltac js_unfold :=
  cbv [async try_catch bind ret throw await call_async lift].

(** C8. A non-string [id] makes [findById] reject with the error
    [id must be a string]; a falsy [id] makes [removeById] answer
    [undefined], and a truthy non-string [id] makes it reject with the
    same error. In all three cases the world is left as it was: no
    adapter method is called and the backend is not touched. *)
Theorem invalid_id_never_reaches_adapter (db : DB St) collection id w :
  (isString id = false ->
   findById db collection id w
   = (Rejected (KinveyError "id must be a string"), w))
  /\ (truthy id = false ->
      removeById db collection id w = (Fulfilled VUndefined, w))
  /\ (truthy id = true -> isString id = false ->
      removeById db collection id w
      = (Rejected (KinveyError "id must be a string"), w)).
Proof.
  split_and!.
  - intros Hid. unfold findById. js_unfold. by rewrite Hid.
  - intros Hid. unfold removeById. js_unfold. by rewrite Hid.
  - intros Ht Hid. unfold removeById. js_unfold. by rewrite Ht, Hid.
Qed.

(** *** constructor *)

(** The constructor of [DB] selects by [isSupported], without a probe,
    and never fails: when none of the listed adapters is supported it
    falls back on the in-memory adapter, provided that one is supported,
    and logs an error. *)
Lemma DB_constructor_defaults_to_Memory adapters :
  (forEach_adapters isSupported adapters).1 = None ->
  isSupported Memory = true ->
  (DB_constructor_choice isSupported (VArr adapters)).1 = Some Memory.
Proof.
  intros Hnone Hmemory. unfold DB_constructor_choice.
  destruct (forEach_adapters isSupported adapters) as [[a|] logs]; [done|].
  by rewrite Hmemory.
Qed.

(** *** find *)

Lemma find_fulfilled a (db : DB St) collection query w found st1 :
  adapter db = Some a ->
  adapter_find a collection (store w) = (inr (Fulfilled found), st1) ->
  match query with
  | QAbsent =>
      find db collection query w
      = (Fulfilled found, set_store st1 (CallFind collection) w)
  | QInstance ref =>
      forall q, queries w !! ref = Some q ->
        find db collection query w
        = (Fulfilled (if (0 <? length found)%nat then _process q found
                      else found),
           set_store st1 (CallFind collection) w)
  | QPlain spec =>
      exists w',
        find db collection query w
        = (Fulfilled (if (0 <? length found)%nat then _process spec found
                      else found), w')
        /\ store w' = st1
        /\ calls w' = calls w ++ [CallFind collection]
  end.
Proof.
  intros Ha Hfind. destruct query as [|ref|spec].
  - unfold find, call_adapter. js_unfold. rewrite Ha, Hfind. reflexivity.
  - intros q Hq. unfold find, call_adapter, ensure_Query, Query_process.
    js_unfold. rewrite Ha, Hfind.
    destruct (0 <? length found)%nat; [|done].
    cbn [set_store queries]. by rewrite Hq.
  - unfold find, call_adapter, ensure_Query, Query_process, new_Query.
    js_unfold. rewrite Ha, Hfind.
    destruct (0 <? length found)%nat.
    + cbn [set_store set_queries queries]. rewrite lookup_insert_eq.
      eexists. split; [reflexivity|done].
    + eexists. split; [reflexivity|done].
Qed.

(** A Not-Found of the adapter's [find], thrown or as the rejection of
    its promise, becomes the empty sequence. *)
Lemma find_normalizes_not_found a (db : DB St) collection query w msg st1 :
  adapter db = Some a ->
  adapter_find a collection (store w) = (inl (NotFoundError msg), st1)
  \/ adapter_find a collection (store w)
     = (inr (Rejected (NotFoundError msg)), st1) ->
  (find db collection query w).1 = Fulfilled [].
Proof.
  intros Ha [Hfind|Hfind]; unfold find, call_adapter; js_unfold;
    by rewrite Ha, Hfind.
Qed.

Lemma find_keeps_queries (db : DB St) collection query w :
  match query with QPlain _ => False | _ => True end ->
  queries (find db collection query w).2 = queries w.
Proof.
  intros Hq. unfold find, call_adapter, ensure_Query, Query_process. js_unfold.
  destruct (adapter db) as [a|]; [|done].
  destruct (adapter_find a collection (store w)) as [[e|[found|e]] st1].
  - by destruct (instanceof_NotFoundError e).
  - destruct query as [|ref|spec]; [done| |done].
    destruct (0 <? length found)%nat; [|done].
    cbn [set_store queries]. by destruct (queries w !! ref).
  - by destruct (instanceof_NotFoundError e).
Qed.

(** *** findById *)

(** The [catch] block of [findById] sees what the adapter throws while
    it is being called, not the rejection of the promise it returns. *)
Lemma findById_not_found a (db : DB St) collection id w msg st1 :
  adapter db = Some a ->
  (adapter_findById a collection (VStr id) (store w)
   = (inl (NotFoundError msg), st1) ->
   (findById db collection (VStr id) w).1 = Fulfilled VUndefined)
  /\ (adapter_findById a collection (VStr id) (store w)
      = (inr (Rejected (NotFoundError msg)), st1) ->
      (findById db collection (VStr id) w).1 = Rejected (NotFoundError msg)).
Proof.
  intros Ha. split; intros Hfind; unfold findById, call_adapter; js_unfold;
    cbn [isString negb]; by rewrite Ha, Hfind.
Qed.

(** *** save *)

Lemma generateObjectId_loop_returns n objectId (w : World St) :
  exists id w', generateObjectId_loop Math_random n objectId w = (inr id, w').
Proof.
  revert objectId w. induction n as [|n IH]; intros objectId w.
  - by eexists _, _.
  - cbn [generateObjectId_loop]. unfold random_below. js_unfold. apply IH.
Qed.

Lemma generateObjectId_returns n (w : World St) :
  exists id w', generateObjectId Math_random n w = (inr id, w').
Proof.
  unfold generateObjectId, bind, ret.
  destruct (generateObjectId_loop_returns n EmptyString w) as (id & w' & ->).
  by eexists _, _.
Qed.

Lemma prepare_entity_returns record (w : World St) :
  well_formed_record record = true ->
  exists prepared w',
    prepare_entity Math_random record w = (inr prepared, w')
    /\ is_record prepared = true.
Proof.
  destruct record as [| | | | |fields|]; try done. intros Hkmd.
  cbn [well_formed_record] in Hkmd.
  unfold prepare_entity. js_unfold.
  destruct (negb (truthy (get_field idAttribute fields))); [|by eexists _, _].
  destruct (generateObjectId_returns 24 w) as (id & w' & ->).
  destruct (get_field kmdAttribute fields) as [| | | | |kmd|]; try done;
    by eexists _, _.
Qed.

Lemma map_prepare_entity_returns records (w : World St) :
  Forall (fun r => well_formed_record r = true) records ->
  exists prepared w',
    map_effect (prepare_entity Math_random) records w = (inr prepared, w')
    /\ length prepared = length records
    /\ Forall (fun r => is_record r = true) prepared.
Proof.
  intros Hall. revert w.
  induction Hall as [|record records Hrecord _ IH]; intros w.
  - by eexists _, _.
  - cbn [map_effect]. js_unfold.
    destruct (prepare_entity_returns record w Hrecord) as (r & w1 & -> & Hr).
    destruct (IH w1) as (rs & w2 & -> & Hlen & Hrs).
    eexists _, _. split; [reflexivity|]. split; [cbn; by rewrite Hlen|].
    by constructor.
Qed.

(** C5. With an adapter whose [save] answers with as many records as it
    was given, [save] of a single record answers with a single record,
    the one record of the adapter's answer, and [save] of an array of
    records answers with the adapter's answer, an array of as many
    records. In both cases the adapter is called once, with the records
    as [save] has prepared them. *)
Theorem save_is_contract_symmetric a (db : DB St) collection w :
  adapter db = Some a ->
  save_answers_with_records a ->
  (forall record,
     well_formed_record record = true ->
     exists prepared w1 st1 saved,
       map_effect (prepare_entity Math_random) [record] w = (inr prepared, w1)
       /\ adapter_save a collection prepared (store w1)
          = (inr (Fulfilled [saved]), st1)
       /\ is_record saved = true
       /\ save db collection record w
          = (Fulfilled saved, set_store st1 (CallSave collection prepared) w1))
  /\ (forall records,
        Forall (fun r => well_formed_record r = true) records ->
        exists prepared w1 st1 saved,
          map_effect (prepare_entity Math_random) records w
          = (inr prepared, w1)
          /\ adapter_save a collection prepared (store w1)
             = (inr (Fulfilled saved), st1)
          /\ length saved = length records
          /\ save db collection (VArr records) w
             = (Fulfilled (VArr saved),
                set_store st1 (CallSave collection prepared) w1)).
Proof.
  intros Ha Hsave. split.
  - intros record Hrecord.
    destruct record as [| | | | |fields|]; try discriminate Hrecord.
    destruct (map_prepare_entity_returns [VObj fields] w)
      as (rs & w1 & Hmap & Hlen & Hrs).
    { by constructor. }
    destruct (Hsave collection rs (store w1) Hrs)
      as (saved & st1 & Hcall & Hn & Hall).
    rewrite Hlen in Hn.
    destruct saved as [|first [|? ?]]; try discriminate Hn.
    exists rs, w1, st1, first. split; [done|]. split; [done|].
    split; [by inversion Hall|].
    unfold Cache.save, call_adapter. js_unfold. cbn [truthy negb isArray].
    rewrite Hmap, Ha, Hcall. reflexivity.
  - intros records Hrecords.
    destruct (map_prepare_entity_returns records w Hrecords)
      as (rs & w1 & Hmap & Hlen & Hrs).
    destruct (Hsave collection rs (store w1) Hrs)
      as (saved & st1 & Hcall & Hn & _).
    exists rs, w1, st1, saved. split; [done|]. split; [done|].
    split; [congruence|].
    unfold Cache.save, call_adapter. js_unfold. cbn [truthy negb isArray].
    rewrite Hmap, Ha, Hcall. cbn [andb]. reflexivity.
Qed.

(** *** removeById, remove *)

Lemma removeById_keeps_queries (db : DB St) collection id w :
  queries (removeById db collection id w).2 = queries w.
Proof.
  unfold removeById, call_adapter. js_unfold.
  destruct (negb (truthy id)); [done|].
  destruct (negb (isString id)); [done|].
  destruct (adapter db) as [a|]; [|done].
  by destruct (adapter_removeById a collection id (store w)) as [[e|p] st1].
Qed.

Lemma remove_entity_keeps_queries (db : DB St) collection entity w :
  queries (remove_entity db collection entity w).2 = queries w.
Proof.
  unfold remove_entity. js_unfold.
  destruct (get_prop idAttribute entity) as [e|id]; [done|].
  pose proof (removeById_keeps_queries db collection id w) as Hk.
  by destruct (removeById db collection id w).
Qed.

Lemma map_effect_keeps_queries {A B} (f : A -> Exc (World St) B) l w :
  (forall x w, queries (f x w).2 = queries w) ->
  queries (map_effect f l w).2 = queries w.
Proof.
  intros Hf. revert w. induction l as [|x l IH]; intros w; [done|].
  cbn [map_effect]. js_unfold.
  pose proof (Hf x w) as Hx. destruct (f x w) as [[e|y] w1]; [done|].
  pose proof (IH w1) as Hl. destruct (map_effect f l w1) as [[e|ys] w2];
    cbn in *; congruence.
Qed.

Lemma remove_resets_window (db : DB St) collection ref w :
  queries (remove db collection (QInstance ref) w).2
  = alter reset_window ref (queries w).
Proof.
  unfold remove, ensure_Query, discard_window. js_unfold.
  set (w0 := set_queries (alter reset_window ref (queries w)) w).
  assert (H0 : queries w0 = alter reset_window ref (queries w)) by done.
  clearbody w0.
  pose proof (find_keeps_queries db collection (QInstance ref) w0 I) as Hfind.
  destruct (find db collection (QInstance ref) w0) as [[entities|e] w1];
    cbn [fst snd] in *; [|congruence].
  pose proof (map_effect_keeps_queries (remove_entity db collection) entities w1
                (remove_entity_keeps_queries db collection)) as Hmap.
  destruct (map_effect _ entities w1) as [[e|promises] w2];
    cbn [fst snd] in *; [congruence|].
  destruct (Promise_all promises); cbn [fst snd]; congruence.
Qed.

Lemma count_keeps_queries (db : DB St) collection query w :
  match query with QPlain _ => False | _ => True end ->
  queries (count db collection query w).2 = queries w.
Proof.
  intros Hq. unfold count. js_unfold.
  pose proof (find_keeps_queries db collection query w Hq) as Hfind.
  by destruct (find db collection query w) as [[entities|e] w1].
Qed.

(** C2 (amended). [find] and [count] leave every [Query] instance as it
    is. [remove] keeps the predicate of the instance it is given, but
    overwrites its sort and limit with [null] and its skip with [0], on
    the caller's object; no other instance is touched. *)
Theorem remove_overwrites_query_window (db : DB St) collection ref q w :
  queries w !! ref = Some q ->
  queries (find db collection (QInstance ref) w).2 = queries w
  /\ queries (count db collection (QInstance ref) w).2 = queries w
  /\ queries (remove db collection (QInstance ref) w).2
     = <[ref := {| q_filter := q_filter q; q_sort := None; q_limit := None;
                   q_skip := 0 |}]> (queries w).
Proof.
  intros Hq. split_and!.
  - by apply find_keeps_queries.
  - by apply count_keeps_queries.
  - rewrite remove_resets_window. apply map_eq. intros i.
    rewrite lookup_alter, lookup_insert.
    destruct (decide (ref = i)) as [->|]; [by rewrite Hq|done].
Qed.

(** *** remove: what is removed *)

Lemma process_reset_window q entities :
  _process (reset_window q) entities = List.filter (q_filter q) entities.
Proof. reflexivity. Qed.

Lemma filter_or_empty (pred : Value -> bool) (found : list Value) :
  (if (0 <? length found)%nat then List.filter pred found else found)
  = List.filter pred found.
Proof. by destruct found. Qed.

Lemma filter_all (l : list Value) : List.filter (fun _ => true) l = l.
Proof. induction l as [|x l IH]; cbn; congruence. Qed.

Lemma foldl_push {A} (acc l : list A) :
  foldl (fun entities entity => entities ++ [entity]) acc l = acc ++ l.
Proof.
  revert acc. induction l as [|x l IH]; intros acc; cbn.
  - by rewrite app_nil_r.
  - by rewrite IH, <- app_assoc.
Qed.

Lemma removeById_calls_adapter a (db : DB St) collection id w p st1 :
  adapter db = Some a ->
  isString id = true -> truthy id = true ->
  adapter_removeById a collection id (store w) = (inr p, st1) ->
  removeById db collection id w
  = (p, set_store st1 (CallRemoveById collection id) w).
Proof.
  intros Ha Hs Ht Hcall. unfold removeById, call_adapter. js_unfold.
  rewrite Ht, Hs. cbn [negb]. by rewrite Ha, Hcall.
Qed.

Lemma map_remove_entity a (db : DB St) collection targets w :
  adapter db = Some a ->
  removeById_returns_promise a ->
  Forall (fun e => stored_record e = true) targets ->
  map_effect (remove_entity db collection) targets w
  = (inr (removeById_each a collection (id_of <$> targets) (store w)).1,
     {| store := (removeById_each a collection (id_of <$> targets) (store w)).2;
        calls := calls w ++ (CallRemoveById collection ∘ id_of <$> targets);
        queries := queries w;
        draws := draws w |}).
Proof.
  intros Ha Hpromise Hall. revert w.
  induction Hall as [|entity targets Hentity _ IH]; intros w.
  - cbn. rewrite app_nil_r. by destruct w.
  - cbn [map_effect fmap list_fmap removeById_each compose].
    unfold stored_record in Hentity.
    apply andb_prop in Hentity as [Hentity Ht].
    apply andb_prop in Hentity as [Hrec Hs].
    destruct entity as [| | | | |fields|]; try done. cbn [id_of] in *.
    destruct (Hpromise collection (get_field idAttribute fields) (store w))
      as (p & st1 & Hcall).
    unfold remove_entity. js_unfold. cbn [get_prop].
    rewrite (removeById_calls_adapter a db collection _ w p st1 Ha Hs Ht Hcall).
    rewrite Hcall, IH. cbn [set_store store calls queries draws].
    destruct (removeById_each a collection (id_of <$> targets) st1) as [ps st2].
    cbn [fst snd]. by rewrite <- app_assoc.
Qed.

Lemma remove_by_predicate a (db : DB St) collection query w w0 st1 targets :
  adapter db = Some a ->
  removeById_returns_promise a ->
  match query with QPlain _ => False | _ => True end ->
  (discard_window query w).2 = w0 ->
  find db collection query w0
  = (Fulfilled targets, set_store st1 (CallFind collection) w0) ->
  Forall (fun e => stored_record e = true) targets ->
  let removal := removeById_each a collection (id_of <$> targets) st1 in
  let result := remove db collection query w in
  result.1 = Promise_all removal.1
  /\ store result.2 = removal.2
  /\ calls result.2
     = calls w0 ++ CallFind collection
         :: (CallRemoveById collection ∘ id_of <$> targets).
Proof.
  intros Ha Hpromise Hq Hdiscard Hfind Hall. cbv zeta.
  unfold remove. js_unfold.
  replace (ensure_Query query w) with (inr query : JsError + QueryArg, w)
    by by destruct query.
  destruct (discard_window query w) as [[e|[]] w0'] eqn:Hd;
    [by destruct query|].
  cbn [snd] in Hdiscard. subst w0'. rewrite Hfind.
  rewrite (map_remove_entity a db collection targets _ Ha Hpromise Hall).
  cbn [set_store store calls].
  destruct (removeById_each a collection (id_of <$> targets) st1) as [ps st2].
  cbn [fst snd]. destruct (Promise_all ps) as [responses|e]; cbn [fst snd store calls].
  - rewrite foldl_push. cbn [app]. split_and!; try done. by rewrite <- app_assoc.
  - split_and!; try done. by rewrite <- app_assoc.
Qed.

Lemma remove_plain (db : DB St) collection spec w :
  remove db collection (QPlain spec) w
  = remove db collection (QInstance (fresh (dom (queries w))))
      (set_queries (<[fresh (dom (queries w)) := spec]> (queries w)) w).
Proof. reflexivity. Qed.

(** C6. [remove] discards the window of the query before it evaluates
    it: whatever the sort, limit and skip of the query, the records it
    targets are all the records of the collection that satisfy the
    predicate; each of them is removed by its identifier through the
    adapter, in turn, and the answers are collected. *)
Theorem remove_ignores_windowing a (db : DB St) collection query pred w
    found st1 :
  adapter db = Some a ->
  removeById_returns_promise a ->
  query_predicate query w = Some pred ->
  adapter_find a collection (store w) = (inr (Fulfilled found), st1) ->
  Forall (fun e => stored_record e = true) found ->
  let targets := List.filter pred found in
  let removal := removeById_each a collection (id_of <$> targets) st1 in
  let result := remove db collection query w in
  result.1 = Promise_all removal.1
  /\ store result.2 = removal.2
  /\ calls result.2
     = calls w ++ CallFind collection
         :: (CallRemoveById collection ∘ id_of <$> targets)
  /\ (forall ref, query = QInstance ref ->
        queries result.2 !! ref = reset_window <$> queries w !! ref).
Proof.
  intros Ha Hpromise Hpred Hfind Hall. cbv zeta.
  assert (Htargets : Forall (fun e => stored_record e = true)
                       (List.filter pred found)).
  { apply Forall_forall. intros e [He _]%list_elem_of_In%filter_In.
    rewrite Forall_forall in Hall. by apply Hall, list_elem_of_In. }
  assert (Hinstance : forall ref q w0,
    queries w0 !! ref = Some q -> q_filter q = pred ->
    store w0 = store w -> calls w0 = calls w ->
    let result := remove db collection (QInstance ref) w0 in
    result.1
    = Promise_all (removeById_each a collection
                     (id_of <$> List.filter pred found) st1).1
    /\ store result.2
       = (removeById_each a collection
            (id_of <$> List.filter pred found) st1).2
    /\ calls result.2
       = calls w ++ CallFind collection
           :: (CallRemoveById collection ∘ id_of <$> List.filter pred found)).
  { intros ref q w0 Hq Hfilter Hstore Hcalls.
    set (w1 := set_queries (alter reset_window ref (queries w0)) w0).
    rewrite <- Hcalls.
    apply (remove_by_predicate a db collection (QInstance ref) w0 w1 st1);
      try done.
    pose proof (find_fulfilled a db collection (QInstance ref) w1 found st1 Ha)
      as Hf.
    cbn [w1 set_queries store] in Hf. rewrite Hstore in Hf.
    rewrite (Hf Hfind (reset_window q)).
    - by rewrite process_reset_window, filter_or_empty, Hfilter.
    - cbn [w1 set_queries queries]. by rewrite lookup_alter_eq, Hq. }
  destruct query as [|ref|spec].
  - injection Hpred as <-. rewrite filter_all in *.
    pose proof (remove_by_predicate a db collection QAbsent w w st1 found
                  Ha Hpromise I eq_refl) as Hremove.
    pose proof (find_fulfilled a db collection QAbsent w found st1 Ha Hfind)
      as Hf.
    destruct (Hremove Hf Hall) as (? & ? & ?). by split_and!.
  - cbn [query_predicate] in Hpred.
    destruct (queries w !! ref) as [q|] eqn:Hq; [|done].
    injection Hpred as Hfilter.
    destruct (Hinstance ref q w Hq Hfilter eq_refl eq_refl) as (? & ? & ?).
    split_and!; try done.
    intros ref' [= <-]. by rewrite remove_resets_window, lookup_alter_eq.
  - injection Hpred as Hfilter. rewrite remove_plain.
    set (ref := fresh (dom (queries w))).
    destruct (Hinstance ref spec
                (set_queries (<[ref := spec]> (queries w)) w))
      as (? & ? & ?); try done.
    cbn [set_queries queries]. by rewrite lookup_insert_eq.
Qed.

(** *** CacheMiddleware.handle *)

Lemma clear_is_not_a_member : bool_decide ("clear" ∈ DB_members) = false.
Proof. by vm_compute. Qed.

(** C10. A DELETE request without a collection name calls [db.clear()],
    which class [DB] does not declare: [handle] rejects with a type
    error, the world is left as it was (no adapter call, nothing
    removed), and no response is attached to the request. *)
Theorem delete_without_collection_fails adapters request request' w :
  super_handle request = Fulfilled request' ->
  method request' = DELETE ->
  truthy (collectionName request') = false ->
  ("clear" ∉ DB_members)
  /\ handle adapters request w
     = (Rejected (TypeError "db.clear is not a function"), w).
Proof.
  intros Hsuper Hmethod Hname. split.
  - eapply bool_decide_eq_false_1. exact clear_is_not_a_member.
  - unfold Cache.handle, db_clear. js_unfold.
    rewrite Hsuper, Hmethod, Hname, clear_is_not_a_member. reflexivity.
Qed.

End Engine.

Lemma invalid_id_never_reaches_adapter_witness :
  (isString (VNum 123) = false /\
   findById Memory_DB (VStr "notes") (VNum 123) empty_world
   = (Rejected (KinveyError "id must be a string"), empty_world))
  /\ (truthy VNull = false /\
      removeById Memory_DB (VStr "notes") VNull empty_world
      = (Fulfilled VUndefined, empty_world))
  /\ (truthy (VNum 123) = true /\ isString (VNum 123) = false /\
      removeById Memory_DB (VStr "notes") (VNum 123) empty_world
      = (Rejected (KinveyError "id must be a string"), empty_world)).
Proof.
  pose proof (invalid_id_never_reaches_adapter Memory_DB (VStr "notes")
                (VNum 123) empty_world) as (Hfind & _ & Hremove).
  pose proof (invalid_id_never_reaches_adapter Memory_DB (VStr "notes")
                VNull empty_world) as (_ & Hfalsy & _).
  split_and!;
    [ reflexivity | exact (Hfind eq_refl)
    | reflexivity | exact (Hfalsy eq_refl)
    | reflexivity | reflexivity | exact (Hremove eq_refl eq_refl) ].
Defined.

(** C7. With the in-memory adapter and nothing stored, [find] answers the
    empty sequence, while [findById] hands the adapter's Not-Found on to
    its caller instead of [undefined]. *)
Theorem findById_propagates_not_found :
  (find Memory_DB (VStr "notes") QAbsent empty_world).1 = Fulfilled []
  /\ adapter_findById Memory_adapter (VStr "notes") (VStr "missing") ∅
     = (inr (Rejected (NotFoundError "entity not found")), ∅)
  /\ (findById Memory_DB (VStr "notes") (VStr "missing") empty_world).1
     = Rejected (NotFoundError "entity not found")
  /\ (findById Memory_DB (VStr "notes") (VStr "missing") empty_world).1
     <> Fulfilled VUndefined.
Proof. split_and!; [reflexivity..|discriminate]. Qed.

(** *** The in-memory adapter honours the contracts assumed above *)

Lemma Memory_save_answers : save_answers_with_records Memory_adapter.
Proof. intros collection entities st Hall. by eexists _, _. Qed.

Lemma Memory_removeById_returns_promise :
  removeById_returns_promise Memory_adapter.
Proof.
  intros collection id st. cbn.
  destruct (List.find (has_id id) (table collection st)); by eexists _, _.
Qed.

Lemma save_is_contract_symmetric_witness :
  let record := VObj [("_id", VStr "n1"); ("text", VStr "a")] in
  let stored := VObj [("_id", VStr "n1"); ("text", VStr "a"); ("_kmd", VObj [])] in
  adapter Memory_DB = Some Memory_adapter
  /\ save_answers_with_records Memory_adapter
  /\ well_formed_record record = true
  /\ (save (fun n => n) Memory_DB (VStr "notes") record empty_world).1
     = Fulfilled stored
  /\ (save (fun n => n) Memory_DB (VStr "notes") (VArr [record]) empty_world).1
     = Fulfilled (VArr [stored]).
Proof.
  cbv zeta.
  pose proof (save_is_contract_symmetric (fun n => n) Memory_adapter Memory_DB
                (VStr "notes") empty_world eq_refl Memory_save_answers)
    as [Hsingle Hmany].
  split_and!; [reflexivity|exact Memory_save_answers|reflexivity| |].
  - destruct (Hsingle (VObj [("_id", VStr "n1"); ("text", VStr "a")]) eq_refl)
      as (prepared & w1 & st1 & saved & Hmap & Hcall & _ & ->).
    cbn in Hmap. injection Hmap as <- <-.
    cbn in Hcall. by injection Hcall as <- _.
  - destruct (Hmany [VObj [("_id", VStr "n1"); ("text", VStr "a")]])
      as (prepared & w1 & st1 & saved & Hmap & Hcall & _ & ->).
    { by repeat constructor. }
    cbn in Hmap. injection Hmap as <- <-.
    cbn in Hcall. by injection Hcall as <- _.
Defined.

(** Three stored notes, and a query for the notes tagged [a] that asks
    for one record only, after sorting and skipping. *)
Lemma remove_ignores_windowing_witness :
  let note id tag := VObj [("_id", VStr id); ("tag", VStr tag)] in
  let found := [note "n1" "a"; note "n2" "b"; note "n3" "a"] in
  let tagged_a e :=
    match e with
    | VObj fields =>
        match get_field "tag" fields with
        | VStr t => String.eqb t "a"
        | _ => false
        end
    | _ => false
    end in
  let q := {| q_filter := tagged_a; q_sort := Some (fun _ _ => false);
              q_limit := Some 1%nat; q_skip := 1 |} in
  let w : World MemoryStore :=
    {| store := {[ "notes" := found ]}; calls := [];
       queries := {[ 7%nat := q ]}; draws := 0 |} in
  let result := remove Memory_DB (VStr "notes") (QInstance 7) w in
  adapter Memory_DB = Some Memory_adapter
  /\ removeById_returns_promise Memory_adapter
  /\ query_predicate (QInstance 7) w = Some tagged_a
  /\ adapter_find Memory_adapter (VStr "notes") (store w)
     = (inr (Fulfilled found), store w)
  /\ Forall (fun e => stored_record e = true) found
  /\ result.1 = Fulfilled [note "n1" "a"; note "n3" "a"]
  /\ table (VStr "notes") (store result.2) = [note "n2" "b"]
  /\ calls result.2
     = [CallFind (VStr "notes");
        CallRemoveById (VStr "notes") (VStr "n1");
        CallRemoveById (VStr "notes") (VStr "n3")].
Proof.
  cbv zeta.
  match goal with
  | |- _ /\ _ /\ query_predicate ?query ?w = Some ?pred /\
       adapter_find _ _ _ = (inr (Fulfilled ?found), ?st1) /\ _ =>
      pose proof (remove_ignores_windowing Memory_adapter Memory_DB
                    (VStr "notes") query pred w found st1 eq_refl
                    Memory_removeById_returns_promise eq_refl eq_refl)
        as Hremove
  end.
  assert (Hall : Forall (fun e => stored_record e = true)
            [VObj [("_id", VStr "n1"); ("tag", VStr "a")];
             VObj [("_id", VStr "n2"); ("tag", VStr "b")];
             VObj [("_id", VStr "n3"); ("tag", VStr "a")]])
    by by repeat constructor.
  destruct (Hremove Hall) as (Hresult & Hstore & Hcalls & _).
  split_and!;
    [ reflexivity | exact Memory_removeById_returns_promise | reflexivity
    | reflexivity | exact Hall
    | rewrite Hresult; reflexivity
    | rewrite Hstore; reflexivity
    | rewrite Hcalls; reflexivity ].
Defined.

(** C2, as stated, fails for [remove]: a query instance with a window,
    held by the caller at reference 7, has lost its sort, limit and skip
    after the call. *)
Lemma remove_mutates_query_counterexample :
  let q := {| q_filter := fun _ => true; q_sort := Some (fun _ _ => true);
              q_limit := Some 1%nat; q_skip := 2 |} in
  let w : World MemoryStore :=
    {| store := ∅; calls := []; queries := {[ 7%nat := q ]}; draws := 0 |} in
  let w' := (remove Memory_DB (VStr "notes") (QInstance 7) w).2 in
  queries w !! 7%nat = Some q
  /\ (q_limit <$> queries w' !! 7%nat) = Some None
  /\ (q_skip <$> queries w' !! 7%nat) = Some 0%nat
  /\ (q_sort <$> queries w' !! 7%nat) = Some None
  /\ queries w' !! 7%nat <> queries w !! 7%nat.
Proof.
  cbv zeta. split_and!; [reflexivity..|].
  intros Heq. apply (f_equal (fmap q_limit)) in Heq. vm_compute in Heq.
  discriminate.
Qed.

Lemma remove_overwrites_query_window_witness :
  let q := {| q_filter := fun _ => true; q_sort := Some (fun _ _ => true);
              q_limit := Some 1%nat; q_skip := 2 |} in
  let w : World MemoryStore :=
    {| store := ∅; calls := []; queries := {[ 7%nat := q ]}; draws := 0 |} in
  queries w !! 7%nat = Some q
  /\ queries (remove Memory_DB (VStr "notes") (QInstance 7) w).2
     = <[7%nat := {| q_filter := q_filter q; q_sort := None; q_limit := None;
                  q_skip := 0 |}]> (queries w).
Proof.
  cbv zeta. split; [reflexivity|].
  eapply (remove_overwrites_query_window Memory_DB (VStr "notes") 7%nat).
  reflexivity.
Defined.

Lemma delete_without_collection_fails_witness :
  let request := {| method := DELETE; query := QAbsent; body := VUndefined;
                    collectionName := VUndefined; entityId := VUndefined;
                    appKey := VStr "kid_1"; response := None |} in
  Fulfilled request = Fulfilled request
  /\ method request = DELETE
  /\ truthy (collectionName request) = false
  /\ handle (fun _ => true) (fun _ _ => Memory_adapter) (fun n => n)
       (fun _ _ => inr VNull) Fulfilled default_adapters request empty_world
     = (Rejected (TypeError "db.clear is not a function"), empty_world).
Proof.
  cbv zeta. split_and!; [reflexivity..|].
  eapply (delete_without_collection_fails (fun _ => true)
            (fun _ _ => Memory_adapter) (fun n => n) (fun _ _ => inr VNull)
            Fulfilled); reflexivity.
Defined.

End CacheFacts.

(** ** The operation serializer *)

Module PromiseQueueByKeyFacts.
Import PromiseQueueByKey.

Lemma status_of_set_status n st q m :
  status_of (set_status n st q) m
  = if decide (n = m) then st else status_of q m.
Proof.
  unfold status_of, set_status. cbn [status].
  rewrite lookup_insert. by destruct (decide (n = m)).
Qed.

Lemma key_of_set_status n st q m : key_of (set_status n st q) m = key_of q m.
Proof. reflexivity. Qed.

Lemma key_of_Some q n k : key_of q n = Some k -> n < length (tasks q).
Proof.
  unfold key_of. intros Hk. apply lookup_lt_is_Some.
  destruct (tasks q !! n); [by eexists|done].
Qed.

Lemma key_of_run_old key ok q i :
  i < length (tasks q) -> key_of (run key ok q) i = key_of q i.
Proof.
  intros Hi. unfold key_of, run. cbn [tasks]. by rewrite lookup_app_l.
Qed.

Lemma key_of_run_new key ok q :
  key_of (run key ok q) (length (tasks q)) = Some key.
Proof.
  unfold key_of, run. cbn [tasks].
  rewrite lookup_app_r by lia. by rewrite Nat.sub_diag.
Qed.

Lemma key_of_run_beyond key ok q i :
  length (tasks q) < i -> key_of (run key ok q) i = None.
Proof.
  intros Hi. unfold key_of, run. cbn [tasks].
  rewrite lookup_ge_None_2; [done|]. rewrite length_app. cbn. lia.
Qed.

Lemma key_of_run key ok q i k :
  key_of (run key ok q) i = Some k ->
  (i < length (tasks q) /\ key_of q i = Some k)
  \/ (i = length (tasks q) /\ k = key).
Proof.
  intros Hk. destruct (Nat.lt_trichotomy i (length (tasks q))) as [Hi|[->|Hi]].
  - left. by rewrite key_of_run_old in Hk.
  - right. rewrite key_of_run_new in Hk. by injection Hk.
  - by rewrite key_of_run_beyond in Hk.
Qed.

Lemma chained_empty : chained empty.
Proof.
  split; unfold key_of, status_of, is_settled; cbn; try done.
  - intros n [st Hst]. by rewrite lookup_empty in Hst.
Qed.

Lemma chained_run key ok q : chained q -> chained (run key ok q).
Proof.
  intros Hq. split.
  - intros k n. unfold run at 1. cbn [tails]. rewrite lookup_insert.
    destruct (decide (key = k)) as [->|Hne].
    + intros [= <-]. split; [apply key_of_run_new|].
      intros i Hi. by rewrite key_of_run_beyond.
    + intros Hn. destruct (tails_last q Hq k n Hn) as [Hkey Hlast].
      pose proof (key_of_Some q n k Hkey) as Hlt.
      split; [by rewrite key_of_run_old|].
      intros i Hi Hk. apply key_of_run in Hk as [[? Hk]|[? ?]]; [|congruence].
      by apply (Hlast i).
  - intros k. unfold run at 1. cbn [tails]. rewrite lookup_insert.
    destruct (decide (key = k)) as [->|Hne]; [done|].
    intros Hnone i Hk. apply key_of_run in Hk as [[? Hk]|[? ?]]; [|congruence].
    by apply (tails_none q Hq k Hnone i).
  - intros j t p Hj Hafter.
    unfold run in Hj. cbn [tasks] in Hj.
    apply lookup_app_Some in Hj as [Hj|[Hge Hj]].
    + destruct (after_previous q Hq j t p Hj Hafter) as (Hlt & Hkey & Hbetween).
      pose proof (lookup_lt_Some _ _ _ Hj) as Hjlt.
      split_and!; [done|rewrite key_of_run_old; [done|lia]|].
      intros i Hi. rewrite key_of_run_old by lia. by apply Hbetween.
    + apply list_lookup_singleton_Some in Hj as [Hz <-].
      assert (j = length (tasks q)) as -> by lia.
      cbn [task_after task_key] in *.
      destruct (tails_last q Hq key p Hafter) as [Hkey Hlast].
      pose proof (key_of_Some q p key Hkey) as Hlt.
      split_and!; [done|by rewrite key_of_run_old|].
      intros i Hi. rewrite key_of_run_old by lia. apply Hlast. lia.
  - intros j t Hj Hafter i Hi.
    unfold run in Hj. cbn [tasks] in Hj.
    apply lookup_app_Some in Hj as [Hj|[Hge Hj]].
    + pose proof (lookup_lt_Some _ _ _ Hj) as Hjlt.
      rewrite key_of_run_old by lia.
      by apply (after_nothing q Hq j t Hj Hafter).
    + apply list_lookup_singleton_Some in Hj as [Hz <-].
      assert (j = length (tasks q)) as -> by lia.
      cbn [task_after task_key] in *.
      rewrite key_of_run_old by lia.
      by apply (tails_none q Hq key Hafter).
  - intros j t p Hj Hstarted Hafter.
    unfold run in Hj. cbn [tasks] in Hj.
    apply lookup_app_Some in Hj as [Hj|[Hge Hj]].
    + by apply (started_after_settled q Hq j t p).
    + apply list_lookup_singleton_Some in Hj as [Hz <-].
      assert (j = length (tasks q)) as -> by lia.
      exfalso. apply Hstarted. unfold status_of, run. cbn [status].
      destruct (status q !! length (tasks q)) as [st|] eqn:Hst; [|done].
      pose proof (status_in_range q Hq (length (tasks q))) as Hrange.
      rewrite Hst in Hrange. specialize (Hrange (mk_is_Some _ _ eq_refl)). lia.
  - intros n Hn. unfold run. cbn [tasks]. rewrite length_app. cbn.
    pose proof (status_in_range q Hq n Hn). lia.
Qed.

Lemma chained_set_status n st q :
  chained q ->
  n < length (tasks q) ->
  is_settled q n = false ->
  st <> Waiting ->
  (forall t p, tasks q !! n = Some t -> task_after t = Some p ->
               is_settled q p = true) ->
  chained (set_status n st q).
Proof.
  intros Hq Hn Hnot Hst Hpred. split.
  - apply (tails_last q Hq).
  - apply (tails_none q Hq).
  - apply (after_previous q Hq).
  - apply (after_nothing q Hq).
  - intros j t p Hj Hstarted Hafter. cbn [set_status tasks] in Hj.
    assert (Hp : is_settled q p = true).
    { rewrite status_of_set_status in Hstarted.
      destruct (decide (n = j)) as [->|Hne].
      - by apply (Hpred t p).
      - by apply (started_after_settled q Hq j t p). }
    unfold is_settled in *. rewrite status_of_set_status.
    destruct (decide (n = p)) as [->|Hne]; [|done].
    by rewrite Hp in Hnot.
  - intros m Hm. cbn [set_status tasks status] in *.
    rewrite lookup_insert in Hm. destruct (decide (n = m)) as [<-|Hne]; [done|].
    by apply (status_in_range q Hq).
Qed.

Lemma chained_exec a q q' : chained q -> exec a q = Some q' -> chained q'.
Proof.
  intros Hq. destruct a as [key ok|n|n]; cbn [exec].
  - intros [= <-]. by apply chained_run.
  - unfold may_start.
    destruct (tasks q !! n) as [t|] eqn:Ht; [|done].
    destruct (status_of q n) eqn:Hs; try done.
    destruct (task_after t) as [p|] eqn:Hafter.
    + destruct (is_settled q p) eqn:Hp; [|done]. intros [= <-].
      apply chained_set_status; try done.
      * by apply lookup_lt_Some in Ht.
      * unfold is_settled. by rewrite Hs.
      * intros t' p' ? ?. by simplify_eq.
    + intros [= <-]. apply chained_set_status; try done.
      * by apply lookup_lt_Some in Ht.
      * unfold is_settled. by rewrite Hs.
      * intros t' p' ? ?. by simplify_eq.
  - destruct (tasks q !! n) as [t|] eqn:Ht; [|done].
    destruct (status_of q n) eqn:Hs; try done. intros [= <-].
    apply chained_set_status; try done.
    + by apply lookup_lt_Some in Ht.
    + unfold is_settled. by rewrite Hs.
    + intros t' p' Ht' Hafter.
      apply (started_after_settled q Hq n t' p'); [congruence| |done].
      by rewrite Hs.
Qed.

Lemma reachable_chained q : reachable q -> chained q.
Proof.
  induction 1 as [|q a q' _ IH Hexec]; [apply chained_empty|].
  by apply (chained_exec a q).
Qed.

(** Within a key, an operation that has started finds every operation
    submitted before it settled. *)
Lemma chained_fifo q :
  chained q ->
  forall j i ti tj,
    i < j ->
    tasks q !! i = Some ti -> tasks q !! j = Some tj ->
    task_key ti = task_key tj ->
    status_of q j <> Waiting ->
    is_settled q i = true.
Proof.
  intros Hq j. induction (lt_wf j) as [j _ IH].
  intros i ti tj Hij Hi Hj Hkey Hstarted.
  assert (Hki : key_of q i = Some (task_key tj)).
  { unfold key_of. rewrite Hi. cbn. by rewrite Hkey. }
  destruct (task_after tj) as [p|] eqn:Hafter.
  - destruct (after_previous q Hq j tj p Hj Hafter) as (Hpj & Hkp & Hbetween).
    pose proof (started_after_settled q Hq j tj p Hj Hstarted Hafter) as Hp.
    destruct (decide (i = p)) as [->|Hne]; [done|].
    assert (i < p) as Hip.
    { destruct (decide (i < p)) as [|Hge]; [done|].
      exfalso. apply (Hbetween i); [lia|done]. }
    unfold key_of in Hkp.
    destruct (tasks q !! p) as [tp|] eqn:Htp; [|done].
    injection Hkp as Hkp.
    apply (IH p Hpj i ti tp Hip Hi Htp); [congruence|].
    unfold is_settled in Hp. by destruct (status_of q p).
  - exfalso. by apply (after_nothing q Hq j tj Hj Hafter i Hij).
Qed.

(** An operation that waits can start as soon as the operations
    submitted before it under its key have settled, whatever their
    outcome and whatever the state of the other keys. *)
Lemma chained_may_start q :
  chained q ->
  forall j tj,
    tasks q !! j = Some tj ->
    status_of q j = Waiting ->
    (forall i ti, i < j -> tasks q !! i = Some ti ->
                  task_key ti = task_key tj -> is_settled q i = true) ->
    may_start q j = true.
Proof.
  intros Hq j tj Hj Hwait Hbefore. unfold may_start. rewrite Hj, Hwait.
  destruct (task_after tj) as [p|] eqn:Hafter; [|done].
  destruct (after_previous q Hq j tj p Hj Hafter) as (Hpj & Hkp & _).
  unfold key_of in Hkp. destruct (tasks q !! p) as [tp|] eqn:Htp; [|done].
  injection Hkp as Hkp. by apply (Hbefore p tp).
Qed.

Lemma exec_all_reachable actions q q' :
  reachable q -> exec_all actions q = Some q' -> reachable q'.
Proof.
  revert q. induction actions as [|a actions IH]; intros q Hq; cbn [exec_all].
  - by intros [= <-].
  - destruct (exec a q) as [q1|] eqn:Hexec; [|done].
    apply IH. by apply (reachable_step q a q1).
Qed.

(** C9. In every state the serializer can reach: an operation that has
    started finds every operation submitted earlier under its key
    settled, so that operations of one key run in the order of their
    submission and two of them are never running together; an operation
    that waits may start as soon as the earlier operations of its key
    have settled, with whatever outcome and whatever the operations of
    other keys are doing. Operations of two keys can run together, and an
    operation runs after one of its key that failed. *)
Theorem serializer_is_fifo_per_key q :
  reachable q ->
  (forall i j ti tj,
     i < j -> tasks q !! i = Some ti -> tasks q !! j = Some tj ->
     task_key ti = task_key tj ->
     status_of q j <> Waiting -> is_settled q i = true)
  /\ (forall i j ti tj,
        i <> j -> tasks q !! i = Some ti -> tasks q !! j = Some tj ->
        task_key ti = task_key tj ->
        ~ (status_of q i = Running /\ status_of q j = Running))
  /\ (forall j tj,
        tasks q !! j = Some tj -> status_of q j = Waiting ->
        (forall i ti, i < j -> tasks q !! i = Some ti ->
                      task_key ti = task_key tj -> is_settled q i = true) ->
        may_start q j = true)
  /\ (exists q',
        exec_all [Submit "a" true; Submit "b" true; Start 1; Start 0] empty
        = Some q'
        /\ status_of q' 0 = Running /\ status_of q' 1 = Running)
  /\ (exists q',
        exec_all [Submit "a" false; Submit "a" true; Start 0; Finish 0; Start 1]
          empty
        = Some q'
        /\ status_of q' 0 = Settled false /\ status_of q' 1 = Running).
Proof.
  intros Hreach. pose proof (reachable_chained q Hreach) as Hq.
  assert (Hfifo := chained_fifo q Hq).
  split_and!.
  - intros i j ti tj. by apply Hfifo.
  - intros i j ti tj Hne Hi Hj Hkey [Hri Hrj].
    destruct (Nat.lt_total i j) as [Hlt|[->|Hlt]]; [|done|].
    + assert (is_settled q i = true) as Hs.
      { apply (Hfifo j i ti tj); try done. by rewrite Hrj. }
      unfold is_settled in Hs. by rewrite Hri in Hs.
    + assert (is_settled q j = true) as Hs.
      { apply (Hfifo i j tj ti); try done. by rewrite Hri. }
      unfold is_settled in Hs. by rewrite Hrj in Hs.
  - by apply chained_may_start.
  - by eexists.
  - by eexists.
Qed.


Lemma serializer_is_fifo_per_key_witness :
  let q := default empty
             (exec_all [Submit "a" true; Submit "b" false; Submit "a" true;
                        Start 0; Start 1; Finish 1; Finish 0; Start 2]
                empty) in
  reachable q /\ is_settled q 0 = true.
Proof.
  cbv zeta.
  assert (Hreach : reachable
            (default empty
               (exec_all [Submit "a" true; Submit "b" false; Submit "a" true;
                          Start 0; Start 1; Finish 1; Finish 0; Start 2]
                  empty))).
  { apply (exec_all_reachable
             [Submit "a" true; Submit "b" false; Submit "a" true;
              Start 0; Start 1; Finish 1; Finish 0; Start 2] empty);
      [apply reachable_empty|reflexivity]. }
  split; [exact Hreach|].
  destruct (serializer_is_fifo_per_key _ Hreach) as [Hfifo _].
  eapply (Hfifo 0 2); [lia|reflexivity|reflexivity|reflexivity|].
  vm_compute. discriminate.
Defined.

End PromiseQueueByKeyFacts.

(** ** More on the storage provider selector *)

Module RepositoryProviderMore.
Import RepositoryProvider.

Section Selector.

Variable testSupportCollection : string.

Local Abbreviation try_next := (try_next testSupportCollection).
Local Abbreviation supported := (supported testSupportCollection).
Local Abbreviation _chooseOfflineRepo :=
  (_chooseOfflineRepo testSupportCollection).

Lemma try_next_supported e sp s :
  supported (_availableStorages s) sp = true ->
  exists repoBuilder obj,
    _availableStorages s !! sp = Some repoBuilder
    /\ repoBuilder queue = inr obj
    /\ try_next (Rejected e) sp s
       = (Fulfilled {| repo_addr := allocated s; repo_obj := obj |},
          {| _chosenRepoPromise := _chosenRepoPromise s;
             _availableStorages := _availableStorages s;
             allocated := S (allocated s);
             trace := (trace s ++ [EvBuild sp (allocated s)])
                      ++ [EvProbe (allocated s) testSupportCollection
                            probe_entity];
             chains := chains s |}).
Proof.
  cbv [RepositoryProvider.supported].
  cbv [RepositoryProvider.try_next promise_catch async bind].
  cbv [_getRepoForStorageProvider get_property].
  destruct (_availableStorages s !! sp) as [b|]; [|done].
  destruct (b queue) as [err|obj] eqn:Hb; [done|].
  cbn. destruct (repo_create obj _ _) as [err|[v|err]]; cbn; try done.
  intros _. by exists b, obj.
Qed.

(** X1. The list is a priority list: as soon as an identifier passes its
    probe, the identifiers after it are neither looked up, built nor
    probed, and when no identifier before it passes, the engine resolved
    is the one its builder returned. *)
Theorem first_supported_wins sp pre post s :
  supported (_availableStorages s) sp = true ->
  _chooseOfflineRepo {| storage := ManyStorages (pre ++ sp :: post) |} s
  = _chooseOfflineRepo {| storage := ManyStorages (pre ++ [sp]) |} s
  /\ (exists repo,
        (_chooseOfflineRepo {| storage := ManyStorages (pre ++ sp :: post) |}
           s).1 = Fulfilled repo)
  /\ (Forall (fun sp' => supported (_availableStorages s) sp' = false) pre ->
      exists repoBuilder repo,
        _availableStorages s !! sp = Some repoBuilder
        /\ repoBuilder queue = inr (repo_obj repo)
        /\ (_chooseOfflineRepo {| storage := ManyStorages (pre ++ sp :: post) |}
              s).1 = Fulfilled repo).
Proof.
  intros Hsp.
  unfold RepositoryProvider._chooseOfflineRepo, _getRepoType, ensureArray,
    RepositoryProvider._getFirstSupportedRepo.
  cbn [storage]. rewrite !RepositoryProviderFacts.reduce_app.
  destruct (RepositoryProviderFacts.reduce_frame testSupportCollection pre
              (Rejected NoReason) s) as [Ha _].
  pose proof (RepositoryProviderFacts.reduce_all_unsupported
                testSupportCollection pre NoReason s) as Hpre.
  destruct (reduce try_next pre (Rejected NoReason) s) as [acc s1].
  cbn [fst snd] in *. cbn [reduce]. destruct acc as [repo|e].
  - rewrite RepositoryProviderFacts.try_next_fulfilled.
    rewrite RepositoryProviderFacts.reduce_fulfilled. cbn.
    split; [done|split; [eexists; reflexivity|]].
    intros Hall. by destruct (Hpre Hall).
  - rewrite <- Ha in Hsp.
    destruct (try_next_supported e sp s1 Hsp) as (b & obj & Hb & Hq & ->).
    rewrite RepositoryProviderFacts.reduce_fulfilled. cbn.
    split; [done|split; [eexists; reflexivity|]].
    intros _. rewrite Ha in Hb. eexists b, _.
    split; [exact Hb|split; [|reflexivity]]. exact Hq.
Qed.

(** X2. Resolution never fulfils with an engine it has not probed: the
    test record was written into the test collection of the very
    instance that is resolved. *)
Theorem resolved_repository_was_probed client s repo :
  (_chooseOfflineRepo client s).1 = Fulfilled repo ->
  EvProbe (repo_addr repo) testSupportCollection probe_entity
    ∈ trace (_chooseOfflineRepo client s).2.
Proof.
  unfold RepositoryProvider._chooseOfflineRepo,
    RepositoryProvider._getFirstSupportedRepo.
  pose proof (RepositoryProviderFacts.reduce_chosen testSupportCollection
                (ensureArray (_getRepoType client)) NoReason s repo) as Hchosen.
  destruct (reduce try_next _ _ s) as [[repo0|e0] s1]; cbn in *; [|done].
  intros Heq. by destruct (Hchosen Heq) as (sp & b & _ & _ & _ & _ & Hev).
Qed.

End Selector.

(** X3. [getSupportedStorages] lists the identifiers of the current
    mapping, each once; [setSupportedRepoBuilders] replaces the mapping
    as a whole, so that an identifier registered before is listed
    afterwards only if the new mapping has it, the in-memory default
    included. *)
Theorem supported_storages_are_those_set repos s sp :
  (sp ∈ getSupportedStorages (setSupportedRepoBuilders repos s)
   <-> is_Some (repos !! sp))
  /\ NoDup (getSupportedStorages (setSupportedRepoBuilders repos s))
  /\ getSupportedStorages initial_state = [StorageProvider_Memory].
Proof.
  unfold getSupportedStorages, setSupportedRepoBuilders.
  cbn [_availableStorages]. split_and!.
  - rewrite list_elem_of_fmap. split.
    + intros [[k b] [-> Hin]]. apply elem_of_map_to_list in Hin. by eexists.
    + intros [b Hb]. exists (sp, b). split; [done|].
      by apply elem_of_map_to_list.
  - apply NoDup_fst_map_to_list.
  - unfold initial_state. cbn [_availableStorages].
    by rewrite map_to_list_singleton.
Qed.

Lemma first_supported_wins_witness :
  let available : gmap string Builder :=
    <[ "Unsupported" := failingRepoBuilder ]>
      {[ "InMemory" := inmemoryRepoBuilder ]} in
  let s := setSupportedRepoBuilders available initial_state in
  supported "kinvey_test_support" (_availableStorages s) "InMemory" = true
  /\ _chooseOfflineRepo "kinvey_test_support"
       {| storage := ManyStorages (["Unsupported"] ++ "InMemory" :: ["WebSQL"]) |}
       s
     = _chooseOfflineRepo "kinvey_test_support"
         {| storage := ManyStorages (["Unsupported"] ++ ["InMemory"]) |} s.
Proof.
  cbv zeta. split; [reflexivity|].
  apply (first_supported_wins "kinvey_test_support" "InMemory"
           ["Unsupported"] ["WebSQL"]).
  reflexivity.
Defined.

Lemma resolved_repository_was_probed_witness :
  let client := {| storage := OneStorage "Memory" |} in
  let resolution := _chooseOfflineRepo "kinvey_test_support" client initial_state in
  exists repo,
    resolution.1 = Fulfilled repo
    /\ EvProbe (repo_addr repo) "kinvey_test_support" probe_entity
         ∈ trace resolution.2.
Proof.
  cbv zeta. eexists. split; [reflexivity|].
  apply (resolved_repository_was_probed "kinvey_test_support"
           {| storage := OneStorage "Memory" |} initial_state).
  reflexivity.
Defined.

Lemma supported_storages_are_those_set_witness :
  let repos : gmap string Builder := {[ "InMemory" := inmemoryRepoBuilder ]} in
  is_Some (repos !! "InMemory")
  /\ "InMemory"
       ∈ getSupportedStorages (setSupportedRepoBuilders repos initial_state)
  /\ ~ StorageProvider_Memory
       ∈ getSupportedStorages (setSupportedRepoBuilders repos initial_state).
Proof.
  cbv zeta.
  assert (Hsome : is_Some (({[ "InMemory" := inmemoryRepoBuilder ]}
                             : gmap string Builder) !! "InMemory"))
    by (by eexists).
  split; [exact Hsome|]. split.
  - exact (proj2 (proj1 (supported_storages_are_those_set
                           {[ "InMemory" := inmemoryRepoBuilder ]}
                           initial_state "InMemory")) Hsome).
  - intros Hin.
    apply (proj1 (proj1 (supported_storages_are_those_set
                           {[ "InMemory" := inmemoryRepoBuilder ]}
                           initial_state StorageProvider_Memory))) in Hin.
    by destruct Hin as [b Hb].
Defined.

End RepositoryProviderMore.

(** ** More on the local cache engine *)

Module CacheMore.
Import Cache.

Section Engine.

Context {St : Type}.
Variable isSupported : DBAdapter -> bool.
Variable new_adapter : DBAdapter -> Value -> Adapter St.
Variable Math_random : nat -> nat.
Variable Aggregation_process : Value -> list Value -> JsError + Value.
Variable super_handle : Request -> Promise Request.

Local Abbreviation save := (save Math_random).
Local Abbreviation group := (group Aggregation_process).
Local Abbreviation generateObjectId := (generateObjectId Math_random).
Local Abbreviation prepare_entity := (prepare_entity Math_random).
Local Abbreviation handle :=
  (handle isSupported new_adapter Math_random Aggregation_process super_handle).

Ltac js_unfold :=
  cbv [async try_catch bind ret throw await call_async lift].

(** *** generateObjectId *)

Lemma append_nil (t : string) : EmptyString +:+ t = t.
Proof. reflexivity. Qed.

Lemma append_cons c (s t : string) : String c s +:+ t = String c (s +:+ t).
Proof. reflexivity. Qed.

Lemma length_snoc (s : string) c :
  String.length (s +:+ String c EmptyString) = S (String.length s).
Proof.
  induction s as [|c' s IH]; [done|].
  rewrite append_cons. cbn [String.length]. by rewrite IH.
Qed.

Lemma is_hex_snoc (s : string) c :
  is_hex (s +:+ String c EmptyString) = is_hex s && is_hex_char c.
Proof.
  induction s as [|c' s IH].
  - rewrite append_nil. cbn [is_hex]. by rewrite andb_true_r.
  - rewrite append_cons. cbn [is_hex]. by rewrite IH, andb_assoc.
Qed.

Lemma substring_chars pos :
  pos < String.length chars ->
  exists c, String.substring pos 1 chars = String c EmptyString
            /\ is_hex_char c = true.
Proof.
  intros Hpos. cbn in Hpos.
  do 16 (destruct pos as [|pos]; [by eexists|]). lia.
Qed.

Lemma generateObjectId_loop_spec n objectId (w : World St) :
  exists id,
    generateObjectId_loop Math_random n objectId w = (inr id, add_draws n w)
    /\ String.length id = String.length objectId + n
    /\ (is_hex objectId = true -> is_hex id = true).
Proof.
  revert objectId w. induction n as [|n IH]; intros objectId w.
  - exists objectId. unfold add_draws. rewrite !Nat.add_0_r.
    by destruct w.
  - cbn [generateObjectId_loop]. unfold random_below. js_unfold.
    destruct (substring_chars (Math_random (draws w) mod String.length chars))
      as (c & -> & Hc).
    { apply Nat.mod_upper_bound. by cbn. }
    match goal with
    | |- context [generateObjectId_loop _ n ?acc ?w1] =>
        destruct (IH acc w1) as (id & -> & Hlen & Hhex)
    end.
    exists id. split_and!.
    + unfold add_draws. cbn [store calls queries draws].
      by rewrite Nat.add_succ_r.
    + rewrite Hlen, length_snoc. lia.
    + intros Hobj. apply Hhex. by rewrite is_hex_snoc, Hobj, Hc.
Qed.

Lemma generateObjectId_spec n (w : World St) :
  exists id,
    generateObjectId n w = (inr id, add_draws n w)
    /\ String.length id = n
    /\ is_hex id = true.
Proof.
  destruct (generateObjectId_loop_spec n EmptyString w) as (id & Hloop & Hlen & Hhex).
  exists id. unfold Cache.generateObjectId, bind, ret. rewrite Hloop.
  split_and!; [done|done|by apply Hhex].
Qed.

(** X4. [generateObjectId(length)] answers a string of exactly [length]
    characters, all of them among [abcdef0123456789]; it never throws,
    draws [length] random numbers and leaves the backend, the adapter
    calls and the query instances alone. *)
Theorem generateObjectId_is_hex n (w : World St) :
  exists id,
    generateObjectId n w = (inr id, add_draws n w)
    /\ String.length id = n
    /\ is_hex id = true.
Proof.
  exact (generateObjectId_spec n w).
Qed.

(** *** save *)

Lemma get_field_set_field_eq k v fields :
  get_field k (set_field k v fields) = v.
Proof.
  induction fields as [|[k' v'] fields IH]; cbn.
  - by rewrite String.eqb_refl.
  - destruct (String.eqb k k') eqn:Hk; cbn; by rewrite Hk.
Qed.

Lemma get_field_set_field_ne k k' v fields :
  k <> k' -> get_field k (set_field k' v fields) = get_field k fields.
Proof.
  intros Hne. apply String.eqb_neq in Hne.
  induction fields as [|[k'' v''] fields IH]; cbn.
  - by rewrite Hne.
  - destruct (String.eqb k' k'') eqn:Hk; cbn.
    + apply String.eqb_eq in Hk as <-. by rewrite Hne.
    + by rewrite IH.
Qed.

Lemma prepare_entity_spec record (w : World St) :
  well_formed_record record = true ->
  exists prepared n,
    prepare_entity record w = (inr prepared, add_draws n w)
    /\ prepared_from record prepared.
Proof.
  destruct record as [| | | | |fields|]; try done. intros Hkmd.
  cbn [well_formed_record] in Hkmd.
  unfold Cache.prepare_entity. js_unfold.
  destruct (truthy (get_field idAttribute fields)) eqn:Hid; cbn [negb].
  - eexists _, 0. split.
    { unfold add_draws. rewrite Nat.add_0_r. by destruct w. }
    eexists _, _. split_and!; [done|done| |].
    + intros k Hk1 Hk2. cbn [fst snd].
      by rewrite !get_field_set_field_ne.
    + rewrite Hid. cbn [fst snd]. split.
      * rewrite get_field_set_field_ne by done.
        apply get_field_set_field_eq.
      * apply get_field_set_field_eq.
  - destruct (generateObjectId_spec 24 w) as (id & -> & Hlen & Hhex).
    assert (Hlocal : exists kmd,
      set_local (if truthy (get_field kmdAttribute fields)
                 then get_field kmdAttribute fields else VObj [])
      = inr (VObj kmd) /\ get_field "local" kmd = VBool true).
    { destruct (get_field kmdAttribute fields) as [| | | | |kmd|]; try done;
        cbn; eexists; (split; [reflexivity|]);
        try done; apply get_field_set_field_eq. }
    destruct Hlocal as (kmd & -> & Hkmd').
    eexists _, 24. split; [reflexivity|].
    eexists _, _. split_and!; [done|done| |].
    + intros k Hk1 Hk2. cbn [fst snd].
      by rewrite !get_field_set_field_ne.
    + rewrite Hid. cbn [fst snd]. exists id, kmd. split_and!; try done.
      * rewrite get_field_set_field_ne by done.
        apply get_field_set_field_eq.
      * apply get_field_set_field_eq.
Qed.

Lemma map_prepare_entity_spec records (w : World St) :
  Forall (fun r => well_formed_record r = true) records ->
  exists prepared n,
    map_effect prepare_entity records w = (inr prepared, add_draws n w)
    /\ Forall2 prepared_from records prepared.
Proof.
  intros Hall. revert w.
  induction Hall as [|record records Hrecord _ IH]; intros w.
  - exists [], 0. split; [|constructor].
    cbn. unfold ret, add_draws. rewrite Nat.add_0_r. by destruct w.
  - cbn [map_effect]. js_unfold.
    destruct (prepare_entity_spec record w Hrecord) as (r & n & -> & Hr).
    destruct (IH (add_draws n w)) as (rs & m & -> & Hrs).
    exists (r :: rs), (n + m). split; [|by constructor].
    unfold add_draws. cbn [store calls queries draws].
    by rewrite Nat.add_assoc.
Qed.

(** X5. Every record reaches the adapter's [save] with an identifier and
    metadata: a record without identifier gets a generated one of 24
    characters of the alphabet and metadata flagged [local]; a record
    with an identifier keeps it, and keeps its metadata or gets empty
    metadata; the other fields are passed on as they are. The adapter is
    called once, with all the records. *)
Theorem save_hands_prepared_records_to_adapter a (db : DB St) collection
    records w :
  adapter db = Some a ->
  Forall (fun r => well_formed_record r = true) records ->
  exists prepared,
    Forall2 prepared_from records prepared
    /\ calls (save db collection (VArr records) w).2
       = calls w ++ [CallSave collection prepared].
Proof.
  intros Ha Hall.
  destruct (map_prepare_entity_spec records w Hall) as (rs & n & Hmap & Hrs).
  exists rs. split; [done|].
  unfold Cache.save, call_adapter. js_unfold. cbn [truthy negb isArray].
  rewrite Hmap, Ha. cbn [store add_draws].
  destruct (adapter_save a collection rs (store w)) as [[e|[saved|e]] st1];
    reflexivity.
Qed.

(** X6. [save] of a falsy value other than [undefined] answers [null]
    and does nothing at all; [save] without entities (or with an empty
    array) calls the adapter with the empty sequence and answers with
    what the adapter answers. *)
Theorem save_of_nothing a (db : DB St) collection w :
  (forall entities,
     truthy entities = false -> entities <> VUndefined ->
     save db collection entities w = (Fulfilled VNull, w))
  /\ (adapter db = Some a ->
      save db collection VUndefined w = save db collection (VArr []) w
      /\ calls (save db collection VUndefined w).2
         = calls w ++ [CallSave collection []]
      /\ forall saved st1,
           adapter_save a collection [] (store w) = (inr (Fulfilled saved), st1) ->
           (save db collection VUndefined w).1 = Fulfilled (VArr saved)).
Proof.
  split.
  - intros entities Hfalsy Hdef. unfold Cache.save. js_unfold.
    destruct entities; try done; cbv beta iota; by rewrite Hfalsy.
  - intros Ha. split_and!; [done| |].
    + unfold Cache.save, call_adapter. js_unfold. cbn. rewrite Ha.
      by destruct (adapter_save a collection [] (store w)) as [[e|[saved|e]] st1].
    + intros saved st1 Hsave.
      unfold Cache.save, call_adapter. js_unfold. cbn. by rewrite Ha, Hsave.
Qed.

(** *** Errors of the adapter *)

Lemma find_adapter_failure a (db : DB St) collection query w e st1 :
  adapter db = Some a ->
  adapter_find a collection (store w) = (inl e, st1)
  \/ adapter_find a collection (store w) = (inr (Rejected e), st1) ->
  find db collection query w
  = (if instanceof_NotFoundError e then Fulfilled [] else Rejected e,
     set_store st1 (CallFind collection) w).
Proof.
  intros Ha [Hfind|Hfind]; unfold find, call_adapter; js_unfold;
    rewrite Ha, Hfind; by destruct (instanceof_NotFoundError e).
Qed.

(** [count] is [find] followed by taking the length. *)
Lemma count_is_length_of_find (db : DB St) collection query w :
  count db collection query w
  = ((promise_then (find db collection query w).1
        (fun entities =>
           VObj [("count", VNum (Z.of_nat (length entities)))])),
     (find db collection query w).2).
Proof.
  unfold count. js_unfold.
  by destruct (find db collection query w) as [[entities|e] w1].
Qed.

(** X7. An error of the adapter's [find] other than Not-Found, thrown or
    as the rejection of its promise, is handed on unchanged by [find],
    [count] and [group]; a Not-Found makes [count] answer
    [{count: 0}]. *)
Theorem find_hands_on_other_errors a (db : DB St) collection query
    aggregation w e st1 :
  adapter db = Some a ->
  adapter_find a collection (store w) = (inl e, st1)
  \/ adapter_find a collection (store w) = (inr (Rejected e), st1) ->
  if instanceof_NotFoundError e then
    (count db collection query w).1 = Fulfilled (VObj [("count", VNum 0)])
  else
    (find db collection query w).1 = Rejected e
    /\ (count db collection query w).1 = Rejected e
    /\ (group db collection aggregation w).1 = Rejected e.
Proof.
  intros Ha Hfind. rewrite count_is_length_of_find.
  unfold Cache.group. js_unfold.
  rewrite (find_adapter_failure a db collection query w e st1 Ha Hfind).
  rewrite (find_adapter_failure a db collection QAbsent w e st1 Ha Hfind).
  by destruct (instanceof_NotFoundError e).
Qed.

(** X8. [save] and [removeById] do not normalize: whatever the adapter
    throws or rejects with, Not-Found included, is the rejection of the
    operation; [removeById] with a non-empty string answers exactly what
    the adapter answers. *)
Theorem mutations_hand_on_adapter_errors a (db : DB St) collection w :
  adapter db = Some a ->
  (forall records e,
     Forall (fun r => well_formed_record r = true) records ->
     (forall entities st,
        exists st', adapter_save a collection entities st
                    = (inr (Rejected e), st')) ->
     (save db collection (VArr records) w).1 = Rejected e)
  /\ (forall id r st1,
        truthy id = true -> isString id = true ->
        adapter_removeById a collection id (store w) = (r, st1) ->
        removeById db collection id w
        = (match r with inl e => Rejected e | inr p => p end,
           set_store st1 (CallRemoveById collection id) w)).
Proof.
  intros Ha. split.
  - intros records e Hall Hsave.
    destruct (map_prepare_entity_spec records w Hall) as (rs & n & Hmap & _).
    destruct (Hsave rs (store (add_draws n w))) as [st' Hcall].
    unfold Cache.save, call_adapter. js_unfold. cbn [truthy negb isArray].
    by rewrite Hmap, Ha, Hcall.
  - intros id r st1 Ht Hs Hcall.
    unfold removeById, call_adapter. js_unfold.
    rewrite Ht, Hs. cbn [negb]. rewrite Ha, Hcall. by destruct r.
Qed.

(** *** The constructor *)

Lemma forEach_adapters_unsupported adapters :
  Forall (fun v => names_supported isSupported v = false) adapters ->
  (forEach_adapters isSupported adapters).1 = None.
Proof.
  induction 1 as [|v adapters Hv _ IH]; [done|].
  cbn [forEach_adapters]. unfold select_adapter.
  destruct (forEach_adapters isSupported adapters) as [r logs].
  cbn [fst] in IH. subst r.
  destruct v as [| | | |name| |]; try done. cbn [names_supported] in Hv.
  destruct (DBAdapter_of_name name) as [a|]; [|done]. by rewrite Hv.
Qed.

Lemma forEach_adapters_supported adapters a :
  (forEach_adapters isSupported adapters).1 = Some a -> isSupported a = true.
Proof.
  induction adapters as [|v adapters IH]; [done|].
  cbn [forEach_adapters]. unfold select_adapter.
  destruct (forEach_adapters isSupported adapters) as [r logs].
  cbn [fst] in IH.
  destruct v as [| | | |name| |]; try done.
  destruct (DBAdapter_of_name name) as [a'|]; [|done].
  destruct (isSupported a') eqn:Ha'; [|done]. cbn. by intros [= <-].
Qed.

Lemma forEach_adapters_first pre name a post :
  Forall (fun v => names_supported isSupported v = false) pre ->
  DBAdapter_of_name name = Some a -> isSupported a = true ->
  (forEach_adapters isSupported (pre ++ VStr name :: post)).1 = Some a.
Proof.
  intros Hpre Hname Ha. induction Hpre as [|v pre Hv _ IH].
  - cbn [app forEach_adapters select_adapter]. by rewrite Hname, Ha.
  - cbn [app forEach_adapters]. unfold select_adapter at 1.
    destruct (forEach_adapters isSupported (pre ++ VStr name :: post))
      as [r logs].
    cbn [fst] in IH. subst r.
    destruct v as [| | | |name'| |]; try done. cbn [names_supported] in Hv.
    destruct (DBAdapter_of_name name') as [a'|]; [|done]. by rewrite Hv.
Qed.

(** X9. The constructor of [DB] takes the first entry of [adapters]
    that names an adapter the platform supports; entries that are not
    recognized or not supported are passed over. When no entry qualifies
    it falls back on the in-memory adapter if that one is supported, and
    otherwise leaves the instance without adapter. The adapter it takes
    is always a supported one. *)
Theorem DB_constructor_takes_first_supported adapters :
  let choice := (DB_constructor_choice isSupported (VArr adapters)).1 in
  (forall a, choice = Some a -> isSupported a = true)
  /\ (choice = None -> isSupported Memory = false)
  /\ (forall pre name a post,
        adapters = pre ++ VStr name :: post ->
        Forall (fun v => names_supported isSupported v = false) pre ->
        DBAdapter_of_name name = Some a -> isSupported a = true ->
        choice = Some a)
  /\ (Forall (fun v => names_supported isSupported v = false) adapters ->
      choice = if isSupported Memory then Some Memory else None).
Proof.
  cbv zeta. unfold DB_constructor_choice. split_and!.
  - intros a.
    pose proof (forEach_adapters_supported adapters a) as Hsup.
    destruct (forEach_adapters isSupported adapters) as [[a'|] logs].
    + cbn in *. intros [= <-]. by apply Hsup.
    + destruct (isSupported Memory) eqn:Hm; [|done]. cbn. by intros [= <-].
  - destruct (forEach_adapters isSupported adapters) as [[a'|] logs]; [done|].
    by destruct (isSupported Memory).
  - intros pre name a post -> Hpre Hname Ha.
    pose proof (forEach_adapters_first pre name a post Hpre Hname Ha) as Hfirst.
    destruct (forEach_adapters isSupported (pre ++ VStr name :: post))
      as [r logs].
    cbn in Hfirst. by subst r.
  - intros Hall. pose proof (forEach_adapters_unsupported adapters Hall) as Hnone.
    destruct (forEach_adapters isSupported adapters) as [r logs].
    cbn in Hnone. subst r. by destruct (isSupported Memory).
Qed.

(** X10. An instance that the constructor left without adapter does not
    fail before it is used: every operation that reaches the adapter
    rejects with a type error, also [find], whose [catch] block only
    lets Not-Found through; the validation of [findById] and
    [removeById] comes first. *)
Theorem operations_without_adapter_reject (db : DB St) collection w :
  adapter db = None ->
  (forall query, exists msg,
     find db collection query w = (Rejected (TypeError msg), w))
  /\ (forall id, isString id = true -> exists msg,
        findById db collection id w = (Rejected (TypeError msg), w))
  /\ (forall id, truthy id = true -> isString id = true -> exists msg,
        removeById db collection id w = (Rejected (TypeError msg), w))
  /\ (forall records,
        Forall (fun r => well_formed_record r = true) records ->
        exists msg,
          (save db collection (VArr records) w).1 = Rejected (TypeError msg)
          /\ calls (save db collection (VArr records) w).2 = calls w
          /\ store (save db collection (VArr records) w).2 = store w).
Proof.
  intros Ha. split_and!.
  - intros query. eexists. unfold find, call_adapter. js_unfold.
    by rewrite Ha.
  - intros id Hs. eexists. unfold findById, call_adapter. js_unfold.
    by rewrite Hs, Ha.
  - intros id Ht Hs. eexists. unfold removeById, call_adapter. js_unfold.
    by rewrite Ht, Hs, Ha.
  - intros records Hall.
    destruct (map_prepare_entity_spec records w Hall) as (rs & n & Hmap & _).
    eexists. unfold Cache.save, call_adapter. js_unfold.
    cbn [truthy negb isArray]. by rewrite Hmap, Ha.
Qed.

(** *** remove, in general *)

Lemma remove_after_find (db : DB St) collection query w w0 w1 targets :
  match query with QPlain _ => False | _ => True end ->
  (discard_window query w).2 = w0 ->
  find db collection query w0 = (Fulfilled targets, w1) ->
  remove db collection query w
  = (match (map_effect (remove_entity db collection) targets w1).1 with
     | inl e => Rejected e
     | inr promises => Promise_all promises
     end,
     (map_effect (remove_entity db collection) targets w1).2).
Proof.
  intros Hq Hdiscard Hfind. unfold remove. js_unfold.
  replace (ensure_Query query w) with (inr query : JsError + QueryArg, w)
    by by destruct query.
  destruct (discard_window query w) as [[e|[]] w0'] eqn:Hd;
    [by destruct query|].
  cbn [snd] in Hdiscard. subst w0'. rewrite Hfind.
  destruct (map_effect (remove_entity db collection) targets w1)
    as [[e|promises] w2]; [done|].
  cbn [fst snd]. destruct (Promise_all promises) as [responses|e]; [|done].
  by rewrite CacheFacts.foldl_push.
Qed.

Lemma remove_after_adapter_find a (db : DB St) collection query pred w
    found st1 :
  adapter db = Some a ->
  query_predicate query w = Some pred ->
  adapter_find a collection (store w) = (inr (Fulfilled found), st1) ->
  exists w1,
    store w1 = st1
    /\ calls w1 = calls w ++ [CallFind collection]
    /\ remove db collection query w
       = (match (map_effect (remove_entity db collection)
                   (List.filter pred found) w1).1 with
          | inl e => Rejected e
          | inr promises => Promise_all promises
          end,
          (map_effect (remove_entity db collection)
             (List.filter pred found) w1).2).
Proof.
  intros Ha Hpred Hfind.
  assert (Hinstance : forall ref q w0,
    queries w0 !! ref = Some q -> q_filter q = pred ->
    store w0 = store w -> calls w0 = calls w ->
    exists w1,
      store w1 = st1
      /\ calls w1 = calls w ++ [CallFind collection]
      /\ remove db collection (QInstance ref) w0
         = (match (map_effect (remove_entity db collection)
                     (List.filter pred found) w1).1 with
            | inl e => Rejected e
            | inr promises => Promise_all promises
            end,
            (map_effect (remove_entity db collection)
               (List.filter pred found) w1).2)).
  { intros ref q w0 Hq Hfilter Hstore Hcalls.
    set (w0' := set_queries (alter reset_window ref (queries w0)) w0).
    exists (set_store st1 (CallFind collection) w0').
    split_and!; [done|by cbn; rewrite Hcalls|].
    apply (remove_after_find db collection (QInstance ref) w0 w0'); try done.
    pose proof (CacheFacts.find_fulfilled a db collection (QInstance ref) w0'
                  found st1 Ha) as Hf.
    cbn [w0' set_queries store] in Hf. rewrite Hstore in Hf.
    rewrite (Hf Hfind (reset_window q)).
    - by rewrite CacheFacts.process_reset_window, CacheFacts.filter_or_empty,
        Hfilter.
    - cbn [w0' set_queries queries]. by rewrite lookup_alter_eq, Hq. }
  destruct query as [|ref|spec].
  - injection Hpred as <-. rewrite CacheFacts.filter_all.
    exists (set_store st1 (CallFind collection) w). split_and!; try done.
    apply (remove_after_find db collection QAbsent w w); try done.
    apply (CacheFacts.find_fulfilled a db collection QAbsent w found st1 Ha Hfind).
  - cbn [query_predicate] in Hpred.
    destruct (queries w !! ref) as [q|] eqn:Hq; [|done].
    injection Hpred as Hfilter.
    by apply (Hinstance ref q w).
  - injection Hpred as Hfilter. rewrite CacheFacts.remove_plain.
    apply (Hinstance _ spec); try done.
    cbn [set_queries queries]. by rewrite lookup_insert_eq.
Qed.

Lemma removeById_without_id (db : DB St) collection id w :
  truthy id = false ->
  removeById db collection id w = (Fulfilled VUndefined, w).
Proof. intros Hid. unfold removeById. js_unfold. by rewrite Hid. Qed.

Lemma removeById_invalid_id (db : DB St) collection id w :
  invalid_id id = true ->
  removeById db collection id w
  = (Rejected (KinveyError "id must be a string"), w).
Proof.
  unfold invalid_id. intros [Ht Hs]%andb_prop.
  apply negb_true_iff in Hs.
  unfold removeById. js_unfold. by rewrite Ht, Hs.
Qed.

Lemma map_remove_entity_general a (db : DB St) collection targets w :
  adapter db = Some a ->
  removeById_returns_promise a ->
  Forall (fun e => is_record e = true) targets ->
  let ids := List.filter removable_id (id_of <$> targets) in
  exists promises,
    map_effect (remove_entity db collection) targets w
    = (inr promises,
       {| store := (removeById_each a collection ids (store w)).2;
          calls := calls w ++ (CallRemoveById collection <$> ids);
          queries := queries w;
          draws := draws w |})
    /\ Forall2 (fun e p =>
                  (truthy (id_of e) = false -> p = Fulfilled VUndefined)
                  /\ (invalid_id (id_of e) = true ->
                      p = Rejected (KinveyError "id must be a string")))
         targets promises.
Proof.
  intros Ha Hpromise Hall. cbv zeta. revert w.
  induction Hall as [|entity targets Hentity _ IH]; intros w.
  - exists []. split; [|constructor]. cbn. rewrite app_nil_r. by destruct w.
  - destruct entity as [| | | | |fields|]; try done.
    cbn [map_effect fmap list_fmap List.filter].
    unfold remove_entity at 1. js_unfold. cbn [get_prop].
    change (id_of (VObj fields)) with (get_field idAttribute fields).
    remember (get_field idAttribute fields) as id eqn:Hfield.
    destruct (removable_id id) eqn:Hid.
    + pose proof Hid as [Ht Hs]%andb_prop.
      destruct (Hpromise collection id (store w)) as (p & st1 & Hcall).
      rewrite (CacheFacts.removeById_calls_adapter a db collection id w p st1
                 Ha Hs Ht Hcall).
      destruct (IH (set_store st1 (CallRemoveById collection id) w))
        as (ps & -> & Hps).
      exists (p :: ps). split.
      * cbn [removeById_each fmap list_fmap]. rewrite Hcall.
        cbn [set_store store calls queries draws].
        destruct (removeById_each a collection _ st1) as [qs st2].
        cbn [fst snd]. by rewrite <- app_assoc.
      * constructor; [|exact Hps]. cbn [id_of]. rewrite <- Hfield.
        split; [congruence|]. unfold invalid_id. by rewrite Ht, Hs.
    + destruct (truthy id) eqn:Ht.
      * assert (Hinv : invalid_id id = true).
        { unfold invalid_id, removable_id in *. rewrite Ht in *.
          cbn in *. by rewrite Hid. }
        rewrite (removeById_invalid_id db collection id w Hinv).
        destruct (IH w) as (ps & -> & Hps).
        exists (Rejected (KinveyError "id must be a string") :: ps).
        split; [done|]. constructor; [|exact Hps]. cbn [id_of].
        rewrite <- Hfield. split; [congruence|done].
      * rewrite (removeById_without_id db collection id w Ht).
        destruct (IH w) as (ps & -> & Hps).
        exists (Fulfilled VUndefined :: ps).
        split; [done|]. constructor; [|exact Hps]. cbn [id_of].
        rewrite <- Hfield. split; [done|]. unfold invalid_id. by rewrite Ht.
Qed.

Lemma Promise_all_rejects {A} (targets : list Value) (ps : list (Promise A))
    (R : Value -> Promise A -> Prop) (bad : Value -> Prop) :
  (forall e p, R e p -> bad e -> exists err, p = Rejected err) ->
  Forall2 R targets ps ->
  Exists bad targets ->
  exists err, Promise_all ps = Rejected err.
Proof.
  intros HR Hall. induction Hall as [|e p targets ps Hep _ IH]; intros Hex.
  - by apply Exists_nil in Hex.
  - cbn [Promise_all]. destruct p as [v|err]; [|by eexists].
    apply Exists_cons in Hex as [Hbad|Hex].
    + by destruct (HR e (Fulfilled v) Hep Hbad).
    + destruct (IH Hex) as [err ->]. by eexists.
Qed.

Lemma Promise_all_fulfilled {A} (targets : list Value) (ps : list (Promise A))
    (R : Value -> Promise A -> Prop) (v : A) :
  (forall e p, R e p -> p = Fulfilled v) ->
  Forall2 R targets ps ->
  Promise_all ps = Fulfilled ((fun _ => v) <$> targets).
Proof.
  intros HR Hall. induction Hall as [|e p targets ps Hep _ IH]; [done|].
  cbn [Promise_all fmap list_fmap]. by rewrite (HR e p Hep), IH.
Qed.

Lemma map_remove_entity_answers a (db : DB St) collection targets w :
  adapter db = Some a ->
  removeById_returns_promise a ->
  Forall (fun e => is_record e = true) targets ->
  (map_effect (remove_entity db collection) targets w).1
  = inr (remove_answers a collection targets (store w)).
Proof.
  intros Ha Hpromise Hall. revert w.
  induction Hall as [|entity targets Hentity _ IH]; intros w; [done|].
  destruct entity as [| | | | |fields|]; try done.
  cbn [map_effect remove_answers].
  unfold remove_entity at 1. js_unfold. cbn [get_prop].
  change (id_of (VObj fields)) with (get_field idAttribute fields).
  remember (get_field idAttribute fields) as id eqn:Hfield.
  destruct (removable_id id) eqn:Hid.
  - pose proof Hid as [Ht Hs]%andb_prop.
    destruct (Hpromise collection id (store w)) as (p & st1 & Hcall).
    rewrite (CacheFacts.removeById_calls_adapter a db collection id w p st1
               Ha Hs Ht Hcall), Hcall.
    specialize (IH (set_store st1 (CallRemoveById collection id) w)).
    destruct (map_effect _ targets _) as [[e|ps] w2]; [done|].
    cbn [fst set_store store] in *. by injection IH as ->.
  - destruct (invalid_id id) eqn:Hinv.
    + rewrite (removeById_invalid_id db collection id w Hinv).
      specialize (IH w).
      destruct (map_effect _ targets _) as [[e|ps] w2]; [done|].
      cbn [fst] in *. by injection IH as ->.
    + assert (Ht : truthy id = false).
      { unfold invalid_id, removable_id in *.
        destruct (truthy id); [|done]. cbn in *. by rewrite Hid in Hinv. }
      rewrite (removeById_without_id db collection id w Ht).
      specialize (IH w).
      destruct (map_effect _ targets _) as [[e|ps] w2]; [done|].
      cbn [fst] in *. by injection IH as ->.
Qed.

Lemma remove_answers_without_id a collection targets (st : St) i entity :
  targets !! i = Some entity ->
  truthy (id_of entity) = false ->
  remove_answers a collection targets st !! i = Some (Fulfilled VUndefined).
Proof.
  revert i st. induction targets as [|e targets IH]; intros i st; [done|].
  destruct i as [|i].
  - intros [= ->] Ht. cbn [remove_answers].
    unfold removable_id, invalid_id. by rewrite Ht.
  - intros Hi Ht. cbn [remove_answers].
    destruct (removable_id (id_of e)).
    + destruct (adapter_removeById a collection (id_of e) st) as [r st'].
      by apply IH.
    + destruct (invalid_id (id_of e)); by apply IH.
Qed.

Lemma Promise_all_Fulfilled {A} (ps : list (Promise A)) (vs : list A) :
  Promise_all ps = Fulfilled vs <-> Forall2 (fun p v => p = Fulfilled v) ps vs.
Proof.
  revert vs. induction ps as [|p ps IH]; intros vs; cbn [Promise_all].
  - split; [by intros [= <-]; constructor|by inversion 1].
  - destruct p as [v|e].
    + destruct (Promise_all ps) as [l|e] eqn:Hall.
      * split.
        -- intros [= <-]. constructor; [done|]. by apply IH.
        -- inversion 1 as [|? v' ? vs' Hv Hrest]; subst.
           injection Hv as <-. apply IH in Hrest. by injection Hrest as <-.
      * split; [done|].
        inversion 1 as [|? v' ? vs' Hv Hrest]; subst.
        by apply IH in Hrest.
    + split; [done|]. by inversion 1.
Qed.

(** X11. [remove] calls the adapter exactly for the matching records
    whose identifier is a non-empty string, in the order of the
    collection. A matching record without identifier is passed over and
    contributes [undefined] to the answer, at its position: [remove]
    fulfils exactly when what it has collected for every matching
    record is fulfilled, and then with these values in order, the
    adapter's answer for a record with a string identifier. A matching
    record whose identifier is not a string makes [remove] reject, and
    the other matching records are removed all the same. *)
Theorem remove_by_identifier_kind a (db : DB St) collection query pred w
    found st1 :
  adapter db = Some a ->
  removeById_returns_promise a ->
  query_predicate query w = Some pred ->
  adapter_find a collection (store w) = (inr (Fulfilled found), st1) ->
  Forall (fun e => is_record e = true) found ->
  let targets := List.filter pred found in
  let ids := List.filter removable_id (id_of <$> targets) in
  let result := remove db collection query w in
  calls result.2
  = calls w ++ CallFind collection :: (CallRemoveById collection <$> ids)
  /\ store result.2 = (removeById_each a collection ids st1).2
  /\ (Exists (fun e => invalid_id (id_of e) = true) targets ->
      exists e, result.1 = Rejected e)
  /\ (Forall (fun e => truthy (id_of e) = false) targets ->
      result.1 = Fulfilled ((fun _ => VUndefined) <$> targets))
  /\ (forall responses,
        result.1 = Fulfilled responses
        <-> Forall2 (fun p v => p = Fulfilled v)
              (remove_answers a collection targets st1) responses)
  /\ (forall responses i entity,
        result.1 = Fulfilled responses ->
        targets !! i = Some entity ->
        truthy (id_of entity) = false ->
        responses !! i = Some VUndefined).
Proof.
  intros Ha Hpromise Hpred Hfind Hall. cbv zeta.
  assert (Htargets : Forall (fun e => is_record e = true)
                       (List.filter pred found)).
  { apply Forall_forall. intros e [He _]%list_elem_of_In%filter_In.
    rewrite Forall_forall in Hall. by apply Hall, list_elem_of_In. }
  destruct (remove_after_adapter_find a db collection query pred w found st1
              Ha Hpred Hfind) as (w1 & Hstore & Hcalls & ->).
  pose proof (map_remove_entity_answers a db collection (List.filter pred found)
                w1 Ha Hpromise Htargets) as Hanswers.
  destruct (map_remove_entity_general a db collection (List.filter pred found)
              w1 Ha Hpromise Htargets) as (ps & Hmap & Hps).
  rewrite Hmap in Hanswers. cbn [fst] in Hanswers.
  injection Hanswers as Hanswers. rewrite Hstore in Hanswers.
  rewrite Hmap.
  cbn [fst snd store calls]. rewrite Hstore, Hcalls, <- app_assoc.
  assert (Hexact : forall responses,
    Promise_all ps = Fulfilled responses
    <-> Forall2 (fun p v => p = Fulfilled v)
          (remove_answers a collection (List.filter pred found) st1)
          responses).
  { intros responses. rewrite <- Hanswers. apply Promise_all_Fulfilled. }
  split_and!; [done|done| | |exact Hexact|].
  - intros Hex. eapply Promise_all_rejects; [|exact Hps|exact Hex].
    intros e p [_ Hp] Hbad. cbn in Hbad. rewrite (Hp Hbad). by eexists.
  - intros Hnone.
    apply (Promise_all_fulfilled _ _
             (fun e p => truthy (id_of e) = false /\ p = Fulfilled VUndefined)).
    + by intros e p [_ ->].
    + clear -Hps Hnone. induction Hps as [|e p es ps [Hp _] _ IH];
        [constructor|].
      inversion Hnone; subst. constructor; [|by apply IH].
      split; [done|by apply Hp].
  - intros responses i entity Hresult Hi Ht.
    apply Hexact in Hresult.
    pose proof (remove_answers_without_id a collection _ st1 i entity Hi Ht)
      as Hanswer.
    destruct (Forall2_lookup_l _ _ _ _ _ Hresult Hanswer) as (v & Hv & Heq).
    by injection Heq as <-.
Qed.

(** X12. When the adapter does not find the collection, [remove] answers
    the empty sequence and removes nothing; any other failure of the
    adapter's [find] is handed on and nothing is removed either. *)
Theorem remove_when_find_fails a (db : DB St) collection query w e st1 :
  adapter db = Some a ->
  adapter_find a collection (store w) = (inl e, st1)
  \/ adapter_find a collection (store w) = (inr (Rejected e), st1) ->
  let result := remove db collection query w in
  result.1 = (if instanceof_NotFoundError e then Fulfilled [] else Rejected e)
  /\ calls result.2 = calls w ++ [CallFind collection]
  /\ store result.2 = st1.
Proof.
  intros Ha Hfind. cbv zeta.
  assert (Hnp : forall query' w0,
    match query' with QPlain _ => False | _ => True end ->
    store w0 = store w -> calls w0 = calls w ->
    (remove db collection query' w0).1
    = (if instanceof_NotFoundError e then Fulfilled [] else Rejected e)
    /\ calls (remove db collection query' w0).2
       = calls w ++ [CallFind collection]
    /\ store (remove db collection query' w0).2 = st1).
  { intros query' w0 Hq Hstore Hcalls.
    unfold remove. js_unfold.
    replace (ensure_Query query' w0) with (inr query' : JsError + QueryArg, w0)
      by by destruct query'.
    destruct (discard_window query' w0) as [[err|[]] w0'] eqn:Hd;
      [by destruct query'|].
    assert (store w0' = store w /\ calls w0' = calls w) as [Hs Hc].
    { destruct query'; try done; injection Hd as <-; by cbn. }
    rewrite (find_adapter_failure a db collection query' w0' e st1 Ha).
    2:{ by rewrite Hs. }
    destruct (instanceof_NotFoundError e); cbn; by rewrite Hc. }
  destruct query as [|ref|spec].
  - by apply Hnp.
  - by apply Hnp.
  - rewrite CacheFacts.remove_plain. by apply Hnp.
Qed.



(** *** CacheMiddleware.handle *)

(** X13. A request that [handle] answers comes back as [super.handle]
    left it, with a response attached: status Created for POST and Ok
    for every other method, and no headers. When [super.handle] rejects,
    [handle] rejects with the same error and touches nothing. *)
Theorem handle_attaches_response adapters request w :
  (forall answered w',
     handle adapters request w = (Fulfilled answered, w') ->
     exists request' data,
       super_handle request = Fulfilled request'
       /\ answered
          = {| method := method request';
               query := query request';
               body := body request';
               collectionName := collectionName request';
               entityId := entityId request';
               appKey := appKey request';
               response :=
                 Some {| statusCode := match method request' with
                                       | POST => Created
                                       | _ => Ok
                                       end;
                         headers := VObj [];
                         data := data |} |})
  /\ (forall e, super_handle request = Rejected e ->
      handle adapters request w = (Rejected e, w)).
Proof.
  split.
  - intros answered w'. unfold Cache.handle, async.
    unfold bind at 1. unfold await at 1.
    destruct (super_handle request) as [request'|e]; [|done].
    unfold ret at 1. cbv zeta. unfold bind at 1.
    match goal with
    | |- context [match ?m w with pair _ _ => _ end] =>
        destruct (m w) as [[e|data] w1]
    end; [done|].
    unfold ret. intros [= <- <-]. by eexists _, _.
  - intros e He. unfold Cache.handle, async.
    unfold bind at 1. unfold await at 1. by rewrite He.
Qed.

End Engine.

Lemma save_hands_prepared_records_to_adapter_witness :
  let records := [VObj [("text", VStr "a")];
                  VObj [("_id", VStr "given"); ("text", VStr "b")]] in
  adapter Memory_DB = Some Memory_adapter
  /\ Forall (fun r => well_formed_record r = true) records
  /\ exists prepared,
       Forall2 prepared_from records prepared
       /\ calls (save (fun n => n) Memory_DB (VStr "notes") (VArr records)
                   empty_world).2
          = calls empty_world ++ [CallSave (VStr "notes") prepared].
Proof.
  cbv zeta.
  assert (Hall : Forall (fun r => well_formed_record r = true)
            [VObj [("text", VStr "a")];
             VObj [("_id", VStr "given"); ("text", VStr "b")]])
    by by repeat constructor.
  split_and!; [reflexivity|exact Hall|].
  exact (save_hands_prepared_records_to_adapter (fun n => n) Memory_adapter
           Memory_DB (VStr "notes") _ empty_world eq_refl Hall).
Defined.

Lemma save_of_nothing_witness :
  truthy VNull = false /\ VNull <> VUndefined
  /\ save (fun n => n) Memory_DB (VStr "notes") VNull empty_world
     = (Fulfilled VNull, empty_world)
  /\ adapter Memory_DB = Some Memory_adapter
  /\ calls (save (fun n => n) Memory_DB (VStr "notes") VUndefined
              empty_world).2
     = calls empty_world ++ [CallSave (VStr "notes") []].
Proof.
  destruct (save_of_nothing (fun n => n) Memory_adapter Memory_DB
              (VStr "notes") empty_world) as [Hfalsy Hnone].
  assert (Hne : VNull <> VUndefined) by discriminate.
  split_and!; [reflexivity|exact Hne|exact (Hfalsy VNull eq_refl Hne)
              |reflexivity|exact (proj1 (proj2 (Hnone eq_refl)))].
Defined.

Lemma find_hands_on_other_errors_witness :
  let db := {| adapter := Some (Rejecting_adapter (OtherError "quota")) |} in
  adapter db = Some (Rejecting_adapter (OtherError "quota"))
  /\ adapter_find (Rejecting_adapter (OtherError "quota")) (VStr "notes")
       (store empty_world)
     = (inr (Rejected (OtherError "quota")), ∅)
  /\ (find db (VStr "notes") QAbsent empty_world).1
     = Rejected (OtherError "quota")
  /\ (count db (VStr "notes") QAbsent empty_world).1
     = Rejected (OtherError "quota")
  /\ (group (fun _ _ => inr VNull) db (VStr "notes") VNull empty_world).1
     = Rejected (OtherError "quota").
Proof.
  cbv zeta. split; [reflexivity|]. split; [reflexivity|].
  exact (find_hands_on_other_errors (fun _ _ => inr VNull)
           (Rejecting_adapter (OtherError "quota"))
           {| adapter := Some (Rejecting_adapter (OtherError "quota")) |}
           (VStr "notes") QAbsent
           VNull empty_world (OtherError "quota") ∅ eq_refl
           (or_intror eq_refl)).
Defined.

Lemma mutations_hand_on_adapter_errors_witness :
  let e := NotFoundError "gone" in
  let db := {| adapter := Some (Rejecting_adapter e) |} in
  adapter db = Some (Rejecting_adapter e)
  /\ Forall (fun r => well_formed_record r = true) [VObj [("text", VStr "a")]]
  /\ (save (fun n => n) db (VStr "notes") (VArr [VObj [("text", VStr "a")]])
        empty_world).1 = Rejected e
  /\ truthy (VStr "n1") = true /\ isString (VStr "n1") = true
  /\ (removeById db (VStr "notes") (VStr "n1") empty_world).1 = Rejected e.
Proof.
  cbv zeta.
  destruct (mutations_hand_on_adapter_errors (fun n => n)
              (Rejecting_adapter (NotFoundError "gone"))
              {| adapter := Some (Rejecting_adapter (NotFoundError "gone")) |}
              (VStr "notes") empty_world eq_refl) as [Hsave Hremove].
  assert (Hall : Forall (fun r => well_formed_record r = true)
                   [VObj [("text", VStr "a")]]) by by repeat constructor.
  split_and!; [reflexivity|exact Hall| |reflexivity|reflexivity|].
  - apply Hsave; [exact Hall|]. intros entities st. by exists st.
  - by rewrite (Hremove (VStr "n1") _ _ eq_refl eq_refl eq_refl).
Defined.

Lemma DB_constructor_takes_first_supported_witness :
  let isSupported a :=
    match a with LocalStorage | Memory => true | _ => false end in
  let pre := [VStr "IndexedDB"; VStr "Cookie"; VNum 3] in
  Forall (fun v => names_supported isSupported v = false) pre
  /\ DBAdapter_of_name "LocalStorage" = Some LocalStorage
  /\ isSupported LocalStorage = true
  /\ (DB_constructor_choice isSupported
        (VArr (pre ++ VStr "LocalStorage" :: [VStr "Memory"]))).1
     = Some LocalStorage.
Proof.
  cbv zeta.
  assert (Hpre : Forall
            (fun v => names_supported
                        (fun a => match a with
                                  | LocalStorage | Memory => true
                                  | _ => false
                                  end) v = false)
            [VStr "IndexedDB"; VStr "Cookie"; VNum 3])
    by by repeat constructor.
  split_and!; [exact Hpre|reflexivity|reflexivity|].
  eapply (DB_constructor_takes_first_supported _ _); try reflexivity.
  exact Hpre.
Defined.

Lemma operations_without_adapter_reject_witness :
  let db : DB MemoryStore := {| adapter := None |} in
  adapter db = None
  /\ exists msg,
       find db (VStr "notes") QAbsent empty_world
       = (Rejected (TypeError msg), empty_world).
Proof.
  cbv zeta. split; [reflexivity|].
  exact (proj1 (operations_without_adapter_reject (fun n => n)
                  {| adapter := None |} (VStr "notes") empty_world eq_refl)
           QAbsent).
Defined.

(** Three stored records: one with a string identifier, one whose
    identifier is a number, one without identifier. *)
Lemma remove_by_identifier_kind_witness :
  let n1 := VObj [("_id", VStr "n1")] in
  let n2 := VObj [("_id", VStr "n2")] in
  let found := [n1; VObj [("text", VStr "b")]; VObj [("text", VStr "c")]; n2] in
  let w : World MemoryStore :=
    {| store := {[ "notes" := found ]}; calls := []; queries := ∅;
       draws := 0 |} in
  let result := remove Memory_DB (VStr "notes") QAbsent w in
  adapter Memory_DB = Some Memory_adapter
  /\ removeById_returns_promise Memory_adapter
  /\ adapter_find Memory_adapter (VStr "notes") (store w)
     = (inr (Fulfilled found), store w)
  /\ Forall (fun e => is_record e = true) found
  /\ calls result.2
     = [CallFind (VStr "notes"); CallRemoveById (VStr "notes") (VStr "n1");
        CallRemoveById (VStr "notes") (VStr "n2")]
  /\ result.1 = Fulfilled [n1; VUndefined; VUndefined; n2].
Proof.
  cbv zeta.
  assert (Hall : Forall (fun e => is_record e = true)
            [VObj [("_id", VStr "n1")]; VObj [("text", VStr "b")];
             VObj [("text", VStr "c")]; VObj [("_id", VStr "n2")]])
    by by repeat constructor.
  match goal with
  | |- _ /\ _ /\ adapter_find _ _ (store ?w) = _ /\ _ =>
      pose proof (remove_by_identifier_kind Memory_adapter Memory_DB
                    (VStr "notes") QAbsent (fun _ => true) w _ _ eq_refl
                    CacheFacts.Memory_removeById_returns_promise eq_refl
                    eq_refl Hall) as (Hcalls & _ & _ & _ & Hexact & _)
  end.
  split_and!;
    [ reflexivity | exact CacheFacts.Memory_removeById_returns_promise
    | reflexivity | exact Hall
    | rewrite Hcalls; reflexivity
    | apply Hexact; by repeat constructor ].
Defined.

Lemma remove_when_find_fails_witness :
  let e := NotFoundError "no such collection" in
  let db := {| adapter := Some (Rejecting_adapter e) |} in
  adapter db = Some (Rejecting_adapter e)
  /\ adapter_find (Rejecting_adapter e) (VStr "notes") (store empty_world)
     = (inr (Rejected e), ∅)
  /\ (remove db (VStr "notes") QAbsent empty_world).1 = Fulfilled []
  /\ calls (remove db (VStr "notes") QAbsent empty_world).2
     = [CallFind (VStr "notes")].
Proof.
  cbv zeta.
  destruct (remove_when_find_fails
              (Rejecting_adapter (NotFoundError "no such collection"))
              {| adapter :=
                   Some (Rejecting_adapter (NotFoundError "no such collection")) |}
              (VStr "notes") QAbsent empty_world
              (NotFoundError "no such collection") ∅ eq_refl
              (or_intror eq_refl)) as (Hresult & Hcalls & _).
  split_and!; [reflexivity|reflexivity|exact Hresult|exact Hcalls].
Defined.

Lemma handle_attaches_response_witness :
  let request := {| method := POST; query := QAbsent;
                    body := VObj [("_id", VStr "n1")];
                    collectionName := VStr "notes"; entityId := VUndefined;
                    appKey := VStr "kid_1"; response := None |} in
  let result :=
    handle (fun _ => true) (fun _ _ => Memory_adapter) (fun n => n)
      (fun _ _ => inr VNull) Fulfilled default_adapters request empty_world in
  exists answered data,
    result.1 = Fulfilled answered
    /\ response answered
       = Some {| statusCode := Created; headers := VObj []; data := data |}.
Proof.
  cbv zeta.
  destruct (handle_attaches_response (fun _ => true)
              (fun _ _ => Memory_adapter) (fun n => n) (fun _ _ => inr VNull)
              Fulfilled default_adapters
              {| method := POST; query := QAbsent;
                 body := VObj [("_id", VStr "n1")];
                 collectionName := VStr "notes"; entityId := VUndefined;
                 appKey := VStr "kid_1"; response := None |} empty_world)
    as [Hanswer _].
  match type of Hanswer with
  | forall answered w', ?run = _ -> _ =>
      eassert (Hrun : run = (Fulfilled _, _)) by (vm_compute; reflexivity)
  end.
  destruct (Hanswer _ _ Hrun) as (request' & data & Hsuper & Hanswered).
  injection Hsuper as <-.
  eexists _, data. split; [by rewrite Hrun|]. by rewrite Hanswered.
Defined.

End CacheMore.

(** ** The active user of local requests *)

Module LocalRequestFacts.
Import LocalRequest.

Section ActiveUser.

Context {L C : Type}.
Variable localStorage : LocalStorage L.
Variable client : list (string * Value).
Variable isDefined : Value -> bool.
Variable template : Value -> string.
Variable greater_than_zero : Value -> bool.
Variable request_execute : RequestOptions -> C -> (JsError + Promise Value) * C.
Variable usersNamespace : string.
Variable activeUserCollectionName : string.

Local Abbreviation legacy_key := (legacy_key client template).
Local Abbreviation getActiveUserLegacy :=
  (getActiveUserLegacy (C:=C) localStorage client template).
Local Abbreviation setActiveUserLegacy :=
  (setActiveUserLegacy (C:=C) localStorage client isDefined template).
Local Abbreviation loadActiveUser :=
  (loadActiveUser localStorage client template greater_than_zero
     request_execute usersNamespace activeUserCollectionName).

(** X14. The legacy functions swallow the failures of the storage:
    [getActiveUserLegacy] answers [null] when reading throws, and
    [setActiveUserLegacy] answers [false] exactly when removing the entry
    throws or, for a defined user, writing it throws; the entry is
    written only after it has been removed, and only for a defined
    user. *)
Theorem legacy_storage_failures_are_swallowed user (s : State L C) :
  (forall e, localStorage_get localStorage legacy_key (storage s) = inl e ->
             getActiveUserLegacy s = VNull)
  /\ (forall v, localStorage_get localStorage legacy_key (storage s) = inr v ->
                getActiveUserLegacy s = v)
  /\ ((setActiveUserLegacy user s).1 = false <->
      (exists e st,
         localStorage_remove localStorage legacy_key (storage s) = (inl e, st))
      \/ (isDefined user = true
          /\ exists e st,
               localStorage_set localStorage legacy_key user
                 (localStorage_remove localStorage legacy_key (storage s)).2
               = (inl e, st))).
Proof.
  split_and!.
  - intros e He. unfold LocalRequest.getActiveUserLegacy. by rewrite He.
  - intros v Hv. unfold LocalRequest.getActiveUserLegacy. by rewrite Hv.
  - unfold LocalRequest.setActiveUserLegacy.
    destruct (localStorage_remove localStorage legacy_key (storage s))
      as [[e|[]] st].
    + cbn. split; [|done]. intros _. left. by eexists _, _.
    + cbn [snd]. destruct (isDefined user).
      * destruct (localStorage_set localStorage legacy_key user st)
          as [[e|[]] st'].
        -- cbn. split; [|done]. intros _. right. split; [done|].
           by eexists _, _.
        -- cbn. split; [done|]. intros [(e & st0 & [=])|[_ (e & st0 & [=])]].
      * cbn. split; [done|]. intros [(e & st0 & [=])|[[=] _]].
Qed.

Ltac settle :=
  intros; simplify_eq;
  repeat match goal with
         | Hdata : Cache.get_prop "data" ?r = _,
           H : Cache.get_prop "data" ?r = _ |- _ =>
             rewrite Hdata in H; simplify_eq
         end;
  try match goal with
      | Hlen : length_of _ = _ |- _ => cbn in Hlen; simplify_eq
      end;
  try change (Z.of_nat 0) with 0%Z in *; try congruence; try done.

(** X15. [loadActiveUser] does not reject. When executing the request
    throws before a promise exists, [loadActiveUser] throws; otherwise
    it answers a fulfilled promise: [null] when the request is rejected,
    the first user when the response carries a non-empty array of
    users, and the legacy entry when it carries the empty array. *)
Theorem loadActiveUser_does_not_reject (s : State L C) :
  match request_execute
          (user_request client Cache.GET
             (collection_pathname client template usersNamespace
                activeUserCollectionName) VUndefined)
          (cache s) with
  | (inl e, _) => (loadActiveUser s).1 = inl e
  | (inr p, _) =>
      exists v,
        (loadActiveUser s).1 = inr (Fulfilled v)
        /\ (forall e, p = Rejected e -> v = VNull)
        /\ (forall response first rest,
              p = Fulfilled response ->
              Cache.get_prop "data" response = inr (VArr (first :: rest)) ->
              greater_than_zero (VNum (Z.of_nat (length (first :: rest))))
              = true ->
              v = first)
        /\ (forall response,
              p = Fulfilled response ->
              Cache.get_prop "data" response = inr (VArr []) ->
              greater_than_zero (VNum 0) = false ->
              v = getActiveUserLegacy s)
  end.
Proof.
  unfold LocalRequest.loadActiveUser, execute, bind.
  destruct (request_execute _ (cache s)) as [[e|p] c]; [done|].
  destruct p as [response|e].
  - cbn [promise_then_exc]. unfold async, response_data, bind, Cache.lift.
    destruct (Cache.get_prop "data" response) as [e|users] eqn:Hdata.
    + cbn. exists VNull. split_and!; [done|done| |]; settle.
    + cbn [ret promise_then_exc]. unfold async, bind, Cache.lift.
      destruct (length_of users) as [e|len] eqn:Hlen.
      * cbn. exists VNull. split_and!; [done|done| |]; settle.
      * destruct (greater_than_zero len) eqn:Hgt.
        -- cbn. rewrite Hgt. cbn. exists (first_of users).
           split_and!; [done|done| |]; settle.
        -- cbn. rewrite Hgt. cbn. eexists.
           split_and!; [reflexivity|done| |]; settle.
  - cbn. exists VNull. split_and!; [done|done| |]; settle.
Qed.

End ActiveUser.

Section WorkingStorage.

Context {C : Type}.
Variable client : list (string * Value).
Variable isDefined : Value -> bool.
Variable template : Value -> string.
Variable request_execute : RequestOptions -> C -> (JsError + Promise Value) * C.
Variable usersNamespace : string.
Variable activeUserCollectionName : string.

Local Abbreviation legacy_key := (legacy_key client template).
Local Abbreviation getActiveUserLegacy :=
  (getActiveUserLegacy (C:=C) Working_storage client template).
Local Abbreviation setActiveUserLegacy :=
  (setActiveUserLegacy (C:=C) Working_storage client isDefined template).
Local Abbreviation getActiveUser := (getActiveUser (L:=gmap string Value) (C:=C) client template).
Local Abbreviation setActiveUser :=
  (setActiveUser Working_storage client isDefined template request_execute
     usersNamespace activeUserCollectionName).
Local Abbreviation collection_pathname :=
  (collection_pathname client template usersNamespace activeUserCollectionName).

(** X16. On a storage that works, what [setActiveUserLegacy] is given
    is what [getActiveUserLegacy] reads back, and a user that is not
    defined clears the entry, which then reads as [null]; the other
    entries of the storage are not touched. *)
Theorem legacy_entry_round_trip user (s : State (gmap string Value) C) :
  let s' := (setActiveUserLegacy user s).2 in
  (setActiveUserLegacy user s).1 = true
  /\ getActiveUserLegacy s' = (if isDefined user then user else VNull)
  /\ (forall key, key <> legacy_key -> storage s' !! key = storage s !! key)
  /\ activeUsers s' = activeUsers s.
Proof.
  cbv zeta. unfold LocalRequest.setActiveUserLegacy,
    LocalRequest.getActiveUserLegacy.
  cbn [Working_storage localStorage_get localStorage_set localStorage_remove].
  destruct (isDefined user); cbn [fst snd set_storage storage activeUsers].
  - rewrite lookup_insert_eq. split_and!; try done.
    intros key Hkey. by rewrite lookup_insert_ne, lookup_delete_ne.
  - rewrite lookup_delete_eq. split_and!; try done.
    intros key Hkey. by rewrite lookup_delete_ne.
Qed.

Local Abbreviation client_entry :=
  (client_entry client isDefined legacy_key).

Lemma setActiveUserLegacy_client (s : State (gmap string Value) C) :
  (setActiveUserLegacy (VObj client) s).2
  = {| storage := client_entry (storage s); activeUsers := activeUsers s;
       cache := cache s; executed := executed s |}.
Proof.
  unfold LocalRequest.setActiveUserLegacy, LocalRequest.client_entry.
  cbn [Working_storage localStorage_set localStorage_remove].
  by destruct (isDefined (VObj client)).
Qed.


(** X18. Signing out ([setActiveUser] with a user that is not defined)
    while a user is active: the entry in memory is set to [null], one
    DELETE request is executed for the identifier of that user, and
    nothing is posted. The legacy entry is not cleared: it is left
    holding the client object. When the DELETE request is rejected the
    promise is rejected with its error, whatever the new user, and no
    new user is installed. *)
Theorem setActiveUser_replaces user s id p c :
  isDefined (getActiveUser s) = true ->
  Cache.get_prop "_id" (getActiveUser s) = inr id ->
  request_execute
    (user_request client Cache.DELETE
       (collection_pathname +:+ "/" +:+ template id) VUndefined)
    (cache s) = (inr p, c) ->
  let s' :=
    {| storage := client_entry (storage s);
       activeUsers := <[template (appKey client) := VNull]> (activeUsers s);
       cache := c;
       executed := executed s
                   ++ [user_request client Cache.DELETE
                         (collection_pathname +:+ "/" +:+ template id)
                         VUndefined] |} in
  (forall e, p = Rejected e -> setActiveUser user s = (inr (Rejected e), s'))
  /\ (forall response data,
        p = Fulfilled response ->
        Cache.get_prop "data" response = inr data ->
        isDefined user = false ->
        setActiveUser user s = (inr (Fulfilled user), s')).
Proof.
  intros Hactive Hid Hdelete. cbv zeta.
  unfold LocalRequest.setActiveUser. rewrite Hactive.
  cbv [bind ret Cache.lift throw]. rewrite setActiveUserLegacy_client, Hid.
  cbv [execute]. cbn [set_activeUser cache storage activeUsers executed].
  rewrite Hdelete. split.
  - intros e ->. reflexivity.
  - intros response data -> Hdata Huser.
    cbv [call_then promise_then_exc async response_data bind ret Cache.lift
         throw].
    rewrite Hdata, Huser. reflexivity.
Qed.

End WorkingStorage.

Lemma legacy_storage_failures_are_swallowed_witness :
  let e := OtherError "SecurityError" in
  localStorage_get (Failing_storage e)
    (legacy_key example_client string_template) (storage example_state)
  = inl e
  /\ getActiveUserLegacy (Failing_storage e) example_client string_template
       example_state = VNull.
Proof.
  cbv zeta. split; [reflexivity|].
  exact (proj1 (legacy_storage_failures_are_swallowed
                  (Failing_storage (OtherError "SecurityError"))
                  example_client not_nil string_template VNull example_state)
           _ eq_refl).
Defined.

Lemma loadActiveUser_does_not_reject_witness :
  let user := VObj [("_id", VStr "u1")] in
  let response := VObj [("data", VArr [user])] in
  Cache.get_prop "data" response = inr (VArr [user])
  /\ positive (VNum (Z.of_nat (length [user]))) = true
  /\ (loadActiveUser Working_storage example_client string_template positive
        (answering (Fulfilled response)) "user" "kinvey_active_user"
        example_state).1
     = inr (Fulfilled user).
Proof.
  cbv zeta. split; [reflexivity|]. split; [reflexivity|].
  pose proof (loadActiveUser_does_not_reject Working_storage example_client
                string_template positive
                (answering (Fulfilled (VObj [("data",
                   VArr [VObj [("_id", VStr "u1")]])])))
                "user" "kinvey_active_user" example_state) as Hload.
  cbn [answering] in Hload. destruct Hload as (v & -> & _ & Hfirst & _).
  by rewrite (Hfirst _ _ _ eq_refl eq_refl eq_refl).
Defined.

Lemma legacy_entry_round_trip_witness :
  let user := VObj [("_id", VStr "u1")] in
  let s := {| storage := {[ "other" := VNum 1 ]}; activeUsers := ∅;
              cache := tt; executed := [] |} in
  let s' := (setActiveUserLegacy Working_storage example_client not_nil
               string_template user s).2 in
  "other" <> legacy_key example_client string_template
  /\ getActiveUserLegacy Working_storage example_client string_template s'
     = user
  /\ storage s' !! "other" = Some (VNum 1).
Proof.
  cbv zeta.
  assert (Hne : "other" <> legacy_key example_client string_template)
    by discriminate.
  match goal with
  | |- _ /\ LocalRequest.getActiveUserLegacy _ _ _
              (LocalRequest.setActiveUserLegacy _ _ _ _ ?user ?s).2 = _ /\ _ =>
      destruct (legacy_entry_round_trip example_client not_nil string_template
                  user s) as (_ & Hget & Hother & _)
  end.
  split_and!; [exact Hne|exact Hget|].
  by rewrite (Hother "other" Hne).
Defined.


Lemma setActiveUser_replaces_witness :
  let active := VObj [("_id", VStr "u1")] in
  let s : State (gmap string Value) unit :=
    {| storage := ∅; activeUsers := {[ "kid_1" := active ]}; cache := tt;
       executed := [] |} in
  let response := VObj [("data", VObj [("count", VNum 1)])] in
  let result :=
    setActiveUser Working_storage example_client not_nil string_template
      (answering (Fulfilled response)) "user" "kinvey_active_user" VNull s in
  not_nil (getActiveUser example_client string_template s) = true
  /\ Cache.get_prop "_id" (getActiveUser example_client string_template s)
     = inr (VStr "u1")
  /\ not_nil VNull = false
  /\ result.1 = inr (Fulfilled VNull)
  /\ getActiveUser example_client string_template result.2 = VNull
  /\ getActiveUserLegacy Working_storage example_client string_template
       result.2 = VObj example_client
  /\ options_pathname <$> executed result.2
     = ["/user/kid_1/kinvey_active_user/u1"].
Proof.
  cbv zeta.
  match goal with
  | |- _ /\ _ /\ _ /\
       (LocalRequest.setActiveUser _ _ _ _ ?run _ _ ?user ?s).1 = _ /\ _ =>
      destruct (setActiveUser_replaces example_client not_nil string_template
                  run "user" "kinvey_active_user" user s (VStr "u1") _ tt
                  eq_refl eq_refl eq_refl) as [_ Hout]
  end.
  rewrite (Hout _ _ eq_refl eq_refl eq_refl).
  by split_and!.
Defined.

End LocalRequestFacts.
